(** * Deno permission status tracker: runtime/js/10_permissions.js

    A shallow embedding of the JavaScript module and the properties of its
    status cache, key derivation, facade and event dispatch.

    Scope of the value model.  Descriptors and configuration objects are
    plain data objects: own data properties with string keys, prototype
    [Object.prototype], no accessors and no proxies.  Callbacks (event
    listeners and the [onchange] handler) return normally; what a dispatch
    observes of a callback is whether it calls [event.preventDefault()].
    Object identity is modelled for cache records and [PermissionStatus]
    instances (indices into two heaps); arrays and descriptors are carried
    by value. *)

From stdpp Require Import gmap strings list fin_maps.

(** ** JavaScript values *)

(** A number is carried as its [Number::toString] rendering (the only things
    this module observes of a number are its type tag, its truthiness and
    that rendering). A URL object is carried as its [href]. *)
#[warnings="-register-all"]
Inductive value : Type :=
  | VUndefined
  | VNull
  | VBoolean (b : bool)
  | VNumber (repr : string)
  | VString (s : string)
  | VSymbol (id : nat)
  | VURL (href : string)
  | VArray (elems : list value)
  | VObject (props : gmap string value).

Inductive exn : Type :=
  | TypeError (message : string)
  | OtherError (name message : string).

(** Completion of an evaluation: a normal value or a thrown exception. *)
Inductive completion (A : Type) : Type :=
  | Normal (a : A)
  | Throw (e : exn).
Arguments Normal {A} a.
Arguments Throw {A} e.

Definition cbind {A B} (c : completion A) (k : A -> completion B) : completion B :=
  match c with
  | Normal a => k a
  | Throw e => Throw e
  end.

Notation "'let!' x ':=' c 'in' k" := (cbind c (fun x => k))
  (at level 10, x name, c at level 100, k at level 200).

Definition typeof (v : value) : string :=
  match v with
  | VUndefined => "undefined"
  | VNull => "object"
  | VBoolean _ => "boolean"
  | VNumber _ => "number"
  | VString _ => "string"
  | VSymbol _ => "symbol"
  | VURL _ | VArray _ | VObject _ => "object"
  end.

Definition IsArray (v : value) : bool :=
  match v with VArray _ => true | _ => false end.

(** The elements of an array. *)
Definition elements (v : value) : list value :=
  match v with VArray l => l | _ => [] end.

(** [ToBoolean]: the falsy values are undefined, null, false, the numbers
    0, -0 (rendered 0) and NaN, and the empty string. *)
Definition ToBoolean (v : value) : bool :=
  match v with
  | VUndefined | VNull => false
  | VBoolean b => b
  | VNumber r => negb (String.eqb r "0" || String.eqb r "NaN")
  | VString s => negb (String.eqb s "")
  | VSymbol _ | VURL _ | VArray _ | VObject _ => true
  end.

(** [ToString], as applied by a template literal and by [+=] on a string.
    A symbol cannot be converted. An array renders as [join(",")], where
    undefined and null elements render empty. A plain object renders through
    [Object.prototype.toString] unless an own [toString] property shadows it
    (which, not being callable in this universe, leaves no primitive). *)
Fixpoint ToString (v : value) : completion string :=
  match v with
  | VUndefined => Normal "undefined"
  | VNull => Normal "null"
  | VBoolean b => Normal (if b then "true" else "false")
  | VNumber r => Normal r
  | VString s => Normal s
  | VSymbol _ => Throw (TypeError "Cannot convert a Symbol value to a string")
  | VURL href => Normal href
  | VArray elems =>
      (fix join (l : list value) : completion string :=
         match l with
         | [] => Normal ""
         | x :: rest =>
             let! s := match x with
                       | VUndefined | VNull => Normal ""
                       | _ => ToString x
                       end in
             match rest with
             | [] => Normal s
             | _ :: _ => let! r := join rest in Normal (s +:+ "," +:+ r)
             end
         end) elems
  | VObject props =>
      if bool_decide (is_Some (props !! "toString"))
      then Throw (TypeError "Cannot convert object to primitive value")
      else Normal "[object Object]"
  end.

(** Property read [o.k] / [o[k]]. Every read in this module has a receiver
    already known to be a non-null object (or sits behind [?.]); the names
    read are on no built-in prototype, so a missing own property reads
    undefined. *)
Definition get (o : value) (k : string) : value :=
  match o with
  | VObject props => default VUndefined (props !! k)
  | _ => VUndefined
  end.

(** [Reflect.has(o, k)], i.e. [k in o]. *)
Definition ReflectHas (o : value) (k : string) : bool :=
  match o with
  | VObject props => bool_decide (is_Some (props !! k))
  | _ => false
  end.

(** Assignment [o.k = x] on an extensible plain object. *)
Definition set (o : value) (k : string) (x : value) : value :=
  match o with
  | VObject props => VObject (<[k := x]> props)
  | _ => o
  end.

(** [v === s] for a string [s]: strict equality holds only for that string. *)
Definition strictEqString (v : value) (s : string) : bool :=
  match v with
  | VString t => String.eqb t s
  | _ => false
  end.

(** ** Line 35: the recognised permission names *)

Definition permissionNames : list string :=
  ["read"; "write"; "net"; "env"; "sys"; "run"; "ffi"; "hrtime"].

(** [ArrayPrototypeIncludes(permissionNames, v)] (SameValueZero against
    strings). *)
Definition ArrayPrototypeIncludes (l : list string) (v : value) : bool :=
  existsb (strictEqString v) l.

(** ** Lines 159-162: isValidDescriptor *)

Definition isValidDescriptor (desc : value) : bool :=
  String.eqb (typeof desc) "object"
  && negb (match desc with VNull => true | _ => false end)
  && ArrayPrototypeIncludes permissionNames (get desc "name").

(** ** Lines 123-139: derivation of the cache key

    [let { name: key } = desc] followed by one [key += ...]. *)

Definition suffixed (name : value) (field : value) : completion string :=
  let! k := ToString name in
  let! f := ToString field in
  Normal (k +:+ "-" +:+ f +:+ "&").

Definition cacheKey (desc : value) : completion string :=
  let name := get desc "name" in
  if (strictEqString name "read" || strictEqString name "write"
      || strictEqString name "ffi") && ReflectHas desc "path"
  then suffixed name (get desc "path")
  else if strictEqString name "net" && ToBoolean (get desc "host")
  then suffixed name (get desc "host")
  else if strictEqString name "run" && ToBoolean (get desc "command")
  then suffixed name (get desc "command")
  else if strictEqString name "env" && ToBoolean (get desc "variable")
  then suffixed name (get desc "variable")
  else if strictEqString name "sys" && ToBoolean (get desc "kind")
  then suffixed name (get desc "kind")
  else let! k := ToString name in Normal (k +:+ "$").

Definition obj (l : list (string * value)) : value := VObject (list_to_map l).

(** The identifying sub-field of each kind (the data model of the
    descriptor: a path for read, write and ffi, a host for net, a command
    for run, a variable for env, a kind for sys, none for hrtime). *)
Definition identifying_field (kind : string) : option string :=
  if String.eqb kind "read" || String.eqb kind "write" || String.eqb kind "ffi"
  then Some "path"
  else if String.eqb kind "net" then Some "host"
  else if String.eqb kind "run" then Some "command"
  else if String.eqb kind "env" then Some "variable"
  else if String.eqb kind "sys" then Some "kind"
  else None.

(** The own property [f] of [o], if present. *)
Definition own (o : value) (f : string) : option value :=
  match o with
  | VObject props => props !! f
  | _ => None
  end.

(** Two descriptors name the same capability: the same kind and, for the
    identifying sub-field of that kind, the same presence and value. *)
Definition same_capability (d1 d2 : value) : Prop :=
  exists kind, get d1 "name" = VString kind /\ get d2 "name" = VString kind
    /\ forall f, identifying_field kind = Some f -> own d1 f = own d2 f.

(** The kinds whose sub-field is tested for presence rather than for
    truthiness. *)
Definition tests_presence (kind : string) : bool :=
  String.eqb kind "read" || String.eqb kind "write" || String.eqb kind "ffi".

(** The identifying sub-field as the key derivation reads it: the string
    rendering of the field when it is present (read, write, ffi) or truthy
    (net, run, env, sys), and none otherwise. *)
Definition identifier (desc : value) : completion (option string) :=
  match get desc "name" with
  | VString kind =>
      match identifying_field kind with
      | Some f =>
          if (if tests_presence kind then ReflectHas desc f
              else ToBoolean (get desc f))
          then let! s := ToString (get desc f) in Normal (Some s)
          else Normal None
      | None => Normal None
      end
  | _ => Normal None
  end.

(** The key for a kind and an identifier. *)
Definition render (kind : string) (i : option string) : string :=
  match i with
  | Some s => kind +:+ "-" +:+ s +:+ "&"
  | None => kind +:+ "$"
  end.

(** ** Permission states, events and callbacks *)

(** The three answers of the decision engine ([Deno.PermissionState]). *)
Inductive PermissionState : Type := granted | denied | prompt.

#[global] Instance PermissionState_eq_dec : EqDecision PermissionState.
Proof. solve_decision. Defined.

(** Modelled from the spec: the event of the publish/subscribe primitive
    ([window.__bootstrap.event], not part of this file): a named event,
    optionally cancelable, that records whether it was prevented. *)
Record Event : Type := {
  event_type : string;
  cancelable : bool;
  defaultPrevented : bool;
}.

(** [new Event(type, { cancelable })]. *)
Definition new_Event (type : string) (c : bool) : Event :=
  {| event_type := type; cancelable := c; defaultPrevented := false |}.

(** Modelled from the spec: [event.preventDefault()] marks a cancelable
    event as prevented and leaves any other event alone. *)
Definition preventDefault (e : Event) : Event :=
  if cancelable e
  then {| event_type := event_type e; cancelable := true; defaultPrevented := true |}
  else e.

(** A callback, by what dispatch observes of it: given the event and the
    [state] it can read off its target, does it call [preventDefault]? *)
Definition callback : Type := Event -> PermissionState -> bool.

Definition run_callback (cb : callback) (seen : PermissionState) (e : Event) : Event :=
  if cb e seen then preventDefault e else e.

(** ** Heap objects *)

(** Lines 29-32: a cache record. [status] refers to a [PermissionStatus]
    instance (an index into [instances]). *)
Record StatusCacheValue : Type := {
  state : PermissionState;
  status : nat;
}.

(** Lines 70-75: the fields of a [PermissionStatus] instance. [priv_state]
    is the private [#state], a reference to a cache record (an index into
    [records]); [listeners] are those registered on the [EventTarget] part. *)
Record PermissionStatus : Type := {
  priv_state : nat;
  onchange : option callback;
  listeners : list callback;
}.

#[global] Instance StatusCacheValue_inhabited : Inhabited StatusCacheValue :=
  populate {| state := prompt; status := 0 |}.
#[global] Instance PermissionStatus_inhabited : Inhabited PermissionStatus :=
  populate {| priv_state := 0; onchange := None; listeners := [] |}.

(** What the environment can observe of a run: each dispatch on a target,
    and each callback invocation with the state readable at that moment. *)
Inductive source : Type := Listener | Handler.

Inductive observation : Type :=
  | Dispatched (target : nat) (e : Event)
  | Called (target : nat) (who : source) (seen : PermissionState).

(** Modelled from the spec: [EventTarget.prototype.dispatchEvent] of the
    generic event target ([window.__bootstrap.eventTarget], not part of this
    file): it runs the registered listeners synchronously in registration
    order and returns whether the event was not prevented. *)
Fixpoint invoke_listeners (target : nat) (seen : PermissionState)
    (ls : list callback) (e : Event) : Event * list observation :=
  match ls with
  | [] => (e, [])
  | cb :: rest =>
      let '(e', obs) := invoke_listeners target seen rest (run_callback cb seen e) in
      (e', Called target Listener seen :: obs)
  end.

Definition EventTarget_dispatchEvent (target : nat) (seen : PermissionState)
    (ls : list callback) (e : Event) : bool * Event * list observation :=
  let '(e', obs) := invoke_listeners target seen ls e in
  (negb (defaultPrevented e'), e', obs).

(** Modelled from the spec: the restricted construction token
    ([illegalConstructorKey] of [window.__bootstrap.webUtil], not part of
    this file), a unique symbol. *)
Definition illegalConstructorKey : value := VSymbol 0.

(** [a != b] for a symbol [b]: abstract equality with a symbol holds for
    that same symbol only (a primitive of another type never equals it, and
    an object is first converted to a primitive, here always a string). *)
Definition looseNeqSymbol (a b : value) : bool :=
  match a, b with
  | VSymbol i, VSymbol j => negb (Nat.eqb i j)
  | _, _ => true
  end.

(** [v != null]: false exactly for null and undefined. *)
Definition looseNeqNull (v : value) : bool :=
  match v with
  | VNull | VUndefined => false
  | _ => true
  end.

(** ** The decision engine and the process state *)

(** Lines 5, 50-68: the three ops of [Deno.core.ops]. The engine is opaque;
    an op answers with a state or throws, and may change the engine. *)
Record core_ops (Engine : Type) : Type := {
  op_query_permission : value -> Engine -> completion PermissionState * Engine;
  op_revoke_permission : value -> Engine -> completion PermissionState * Engine;
  op_request_permission : value -> Engine -> completion PermissionState * Engine;
}.
Arguments op_query_permission {Engine} _ _ _.
Arguments op_revoke_permission {Engine} _ _ _.
Arguments op_request_permission {Engine} _ _ _.

(** Line 115: [statusCache] is a [Map] from key to a reference to a record;
    [records] and [instances] are the heaps those references index. *)
Record world (Engine : Type) : Type := {
  statusCache : gmap string nat;
  records : list StatusCacheValue;
  instances : list PermissionStatus;
  engine : Engine;
  trace : list observation;
}.
Arguments statusCache {Engine} _.
Arguments records {Engine} _.
Arguments instances {Engine} _.
Arguments engine {Engine} _.
Arguments trace {Engine} _.
Arguments Build_world {Engine} _ _ _ _ _.

(** A promise, by the state it is created in. *)
Inductive promise (A : Type) : Type :=
  | Fulfilled (a : A)
  | Rejected (e : exn).
Arguments Fulfilled {A} a.
Arguments Rejected {A} e.

Definition PromiseResolve {A} (a : A) : promise A := Fulfilled a.
Definition PromiseReject {A} (e : exn) : promise A := Rejected e.

Section Permissions.

Context {Engine : Type}.
Context (ops : core_ops Engine).
(** Line 8: [pathFromURL] of [window.__bootstrap.util], a pure function that
    may throw. *)
Context (pathFromURL : value -> completion value).

Abbreviation World := (world Engine).

(** Stateful computations that may throw. *)
Definition M (A : Type) : Type := World -> completion A * World.

Definition ret {A} (a : A) : M A := fun w => (Normal a, w).
Definition throw {A} (e : exn) : M A := fun w => (Throw e, w).
Definition lift {A} (c : completion A) : M A := fun w => (c, w).
Definition bind {A B} (m : M A) (k : A -> M B) : M B :=
  fun w =>
    match m w with
    | (Normal a, w') => k a w'
    | (Throw e, w') => (Throw e, w')
    end.

Notation "'do' x <- m ; k" := (bind m (fun x => k))
  (at level 10, x name, m at level 100, k at level 200).

Definition with_records (f : list StatusCacheValue -> list StatusCacheValue) (w : World) : World :=
  Build_world (statusCache w) (f (records w)) (instances w) (engine w) (trace w).
Definition with_instances (f : list PermissionStatus -> list PermissionStatus) (w : World) : World :=
  Build_world (statusCache w) (records w) (f (instances w)) (engine w) (trace w).
Definition with_statusCache (f : gmap string nat -> gmap string nat) (w : World) : World :=
  Build_world (f (statusCache w)) (records w) (instances w) (engine w) (trace w).
Definition with_engine (e : Engine) (w : World) : World :=
  Build_world (statusCache w) (records w) (instances w) e (trace w).
Definition log (obs : list observation) (w : World) : World :=
  Build_world (statusCache w) (records w) (instances w) (engine w) (trace w ++ obs).

(** Lines 50-68: opQuery, opRevoke, opRequest. *)
Definition call_op (op : value -> Engine -> completion PermissionState * Engine)
    (desc : value) : M PermissionState :=
  fun w => let '(r, e) := op desc (engine w) in (r, with_engine e w).

Definition opQuery : value -> M PermissionState := call_op (op_query_permission ops).
Definition opRevoke : value -> M PermissionState := call_op (op_revoke_permission ops).
Definition opRequest : value -> M PermissionState := call_op (op_request_permission ops).

(** ** Lines 70-112: class PermissionStatus *)

(** Lines 78-80: [get state()], i.e. [this.#state.state]. *)
Definition PermissionStatus_state (this : nat) (w : World) : PermissionState :=
  state (records w !!! priv_state (instances w !!! this)).

(** Lines 86-92: the constructor. A new instance has [onchange = null] and
    no listeners; its reference is its index in [instances]. *)
Definition PermissionStatus_constructor (st : nat) (key : value) : M nat :=
  fun w =>
    if looseNeqSymbol key illegalConstructorKey
    then (Throw (TypeError "Illegal constructor."), w)
    else
      let this := length (instances w) in
      (Normal this,
       with_instances
         (fun l => l ++ [{| priv_state := st; onchange := None; listeners := [] |}]) w).

(** Lines 98-105: [dispatchEvent]. The event is a mutable object: the
    result carries it as the call leaves it. *)
Definition PermissionStatus_dispatchEvent (this : nat) (event : Event) : M (bool * Event) :=
  fun w =>
    let self := instances w !!! this in
    let seen := PermissionStatus_state this w in
    let '(dispatched, e1, obs) :=
      EventTarget_dispatchEvent this seen (listeners self) event in
    let w1 := log (Dispatched this event :: obs) w in
    match dispatched, onchange self with
    | true, Some handler =>
        let e2 := run_callback handler seen e1 in
        (Normal (negb (defaultPrevented e2), e2), log [Called this Handler seen] w1)
    | _, _ => (Normal (dispatched, e1), w1)
    end.

(** The calls made while a non-cancelable event is dispatched: every
    listener, then the handler if one is set. *)
Definition change_calls (s : nat) (seen : PermissionState) (self : PermissionStatus)
    : list observation :=
  map (fun _ => Called s Listener seen) (listeners self)
  ++ match onchange self with
     | Some _ => [Called s Handler seen]
     | None => []
     end.

(** ** Lines 122-153: cache

    Lines 149-151 create the record and its instance together: the record's
    reference is reserved, the constructor stores it, and the record enters
    the heap with [status] set. *)
Definition cache (desc : value) (st : PermissionState) : M nat :=
  do key <- lift (cacheKey desc);
  fun w =>
    match statusCache w !! key with
    | Some r =>
        let rec := records w !!! r in
        if bool_decide (state rec <> st) then
          let w1 := with_records (<[r := {| state := st; status := status rec |}]>) w in
          (do _ <- PermissionStatus_dispatchEvent (status rec) (new_Event "change" false);
           ret (status rec)) w1
        else (Normal (status rec), w)
    | None =>
        let r := length (records w) in
        (do s <- PermissionStatus_constructor r illegalConstructorKey;
         fun w1 =>
           let w2 := with_records (fun l => l ++ [{| state := st; status := s |}]) w1 in
           (Normal s, with_statusCache (<[key := r]>) w2)) w
    end.

(** ** Lines 168-176: formDescriptor

    The descriptor is mutated in place; the result is the descriptor as the
    rest of the call sees it. *)
Definition formDescriptor (desc : value) : completion value :=
  let name := get desc "name" in
  if strictEqString name "read" || strictEqString name "write"
     || strictEqString name "ffi"
  then let! p := pathFromURL (get desc "path") in Normal (set desc "path" p)
  else if strictEqString name "run"
  then let! c := pathFromURL (get desc "command") in Normal (set desc "command" c)
  else Normal desc.

(** ** Lines 178-247: class Permissions *)

(** Lines 179-183: the constructor of [Permissions]. An argument left out
    (undefined) takes the default [null]. *)
Definition Permissions_constructor (key : value) : completion unit :=
  let key := match key with VUndefined => VNull | _ => key end in
  if looseNeqSymbol key illegalConstructorKey
  then Throw (TypeError "Illegal constructor.")
  else Normal tt.

(** Line 249: the instance the module exports. *)
Definition permissions : completion unit :=
  Permissions_constructor illegalConstructorKey.

Definition dquote : string := String (Ascii.ascii_of_nat 34) EmptyString.

(** The message of lines 195-197 for a name that renders as [s]. *)
Definition not_a_valid_name (s : string) : string :=
  "The provided value " +:+ dquote +:+ s +:+ dquote
  +:+ " is not a valid permission name.".

(** Lines 195-197: the error of an invalid descriptor. The template literal
    converts [desc?.name] to a string, which itself may throw. *)
Definition invalidDescriptor (desc : value) : exn :=
  match ToString (get desc "name") with
  | Normal s =>
      TypeError ("The provided value " +:+ dquote +:+ s +:+ dquote
                 +:+ " is not a valid permission name.")
  | Throw e => e
  end.

(** Lines 193-204. *)
Definition querySync (desc : value) : M nat :=
  if negb (isValidDescriptor desc) then throw (invalidDescriptor desc)
  else
    do desc' <- lift (formDescriptor desc);
    do st <- opQuery desc';
    cache desc' st.

(** Lines 214-225. *)
Definition revokeSync (desc : value) : M nat :=
  if negb (isValidDescriptor desc) then throw (invalidDescriptor desc)
  else
    do desc' <- lift (formDescriptor desc);
    do st <- opRevoke desc';
    cache desc' st.

(** Lines 235-246. *)
Definition requestSync (desc : value) : M nat :=
  if negb (isValidDescriptor desc) then throw (invalidDescriptor desc)
  else
    do desc' <- lift (formDescriptor desc);
    do st <- opRequest desc';
    cache desc' st.

(** Lines 185-191. *)
Definition query (desc : value) : World -> promise nat * World :=
  fun w =>
    match querySync desc w with
    | (Normal s, w') => (PromiseResolve s, w')
    | (Throw error, w') => (PromiseReject error, w')
    end.

(** Lines 206-212. *)
Definition revoke (desc : value) : World -> promise nat * World :=
  fun w =>
    match revokeSync desc w with
    | (Normal s, w') => (PromiseResolve s, w')
    | (Throw error, w') => (PromiseReject error, w')
    end.

(** Lines 227-233. *)
Definition request (desc : value) : World -> promise nat * World :=
  fun w =>
    match requestSync desc w with
    | (Normal s, w') => (PromiseResolve s, w')
    | (Throw error, w') => (PromiseReject error, w')
    end.

(** ** Lines 252-279: serializePermissions *)

(** [for (const key of new SafeArrayIterator(keys)) body]. *)
Fixpoint for_of {S : Type} (keys : list string) (body : string -> S -> completion S)
    (s : S) : completion S :=
  match keys with
  | [] => Normal s
  | key :: rest => let! s' := body key s in for_of rest body s'
  end.

(** [ArrayPrototypeMap(l, f)] for a callback that may throw. *)
Fixpoint ArrayPrototypeMap (l : list value) (f : value -> completion value)
    : completion (list value) :=
  match l with
  | [] => Normal []
  | x :: rest =>
      let! y := f x in
      let! ys := ArrayPrototypeMap rest f in
      Normal (y :: ys)
  end.

(** [ArrayPrototypeSlice(l)]: a copy with the same elements. *)
Definition ArrayPrototypeSlice (l : list value) : list value := l.

Definition serializePermissions (permissions : value) : completion value :=
  if String.eqb (typeof permissions) "object" && looseNeqNull permissions then
    let serializedPermissions := VObject ∅ in
    let! serializedPermissions :=
      for_of ["read"; "write"; "run"; "ffi"]
        (fun key sp =>
           if IsArray (get permissions key) then
             let! l := ArrayPrototypeMap (elements (get permissions key))
                         (fun path => pathFromURL path) in
             Normal (set sp key (VArray l))
           else Normal (set sp key (get permissions key)))
        serializedPermissions in
    let! serializedPermissions :=
      for_of ["env"; "hrtime"; "net"; "sys"]
        (fun key sp =>
           if IsArray (get permissions key) then
             Normal (set sp key
                       (VArray (ArrayPrototypeSlice (elements (get permissions key)))))
           else Normal (set sp key (get permissions key)))
        serializedPermissions in
    Normal serializedPermissions
  else Normal permissions.

(** What the first loop stores for one key: the converted array, or the
    value itself when it is not an array. *)
Definition convert_paths (v : value) : completion value :=
  match v with
  | VArray l => let! l' := ArrayPrototypeMap l pathFromURL in Normal (VArray l')
  | _ => Normal v
  end.

(** ** The process over time *)

(** What a program can do with the exported API and the instances it
    holds: call the facade, assign [onchange], register a listener, and
    dispatch an event of its own. (The deferred forms act on the state
    exactly as the immediate ones.) *)
Inductive action : Type :=
  | QuerySync (desc : value)
  | RevokeSync (desc : value)
  | RequestSync (desc : value)
  | SetOnchange (target : nat) (handler : option callback)
  | AddEventListener (target : nat) (cb : callback)
  | DispatchEvent (target : nat) (e : Event).

Definition perform (a : action) (w : World) : World :=
  match a with
  | QuerySync desc => (querySync desc w).2
  | RevokeSync desc => (revokeSync desc w).2
  | RequestSync desc => (requestSync desc w).2
  | SetOnchange target handler =>
      with_instances
        (alter (fun o => {| priv_state := priv_state o; onchange := handler;
                            listeners := listeners o |}) target) w
  | AddEventListener target cb =>
      with_instances
        (alter (fun o => {| priv_state := priv_state o; onchange := onchange o;
                            listeners := listeners o ++ [cb] |}) target) w
  | DispatchEvent target e => (PermissionStatus_dispatchEvent target e w).2
  end.

Definition run (acts : list action) (w : World) : World :=
  foldl (fun w a => perform a w) w acts.

(** The state at process start: an empty cache and empty heaps. *)
Definition init (e : Engine) : World := Build_world ∅ [] [] e [].

(** References never dangle, a cached record and its instance point at
    each other, and no record is cached under two keys. *)
Record wf_world (w : World) : Prop := {
  wf_cached : forall key r, statusCache w !! key = Some r ->
    exists rec self, records w !! r = Some rec
      /\ instances w !! status rec = Some self
      /\ priv_state self = r;
  wf_inj : forall k1 k2 r,
    statusCache w !! k1 = Some r -> statusCache w !! k2 = Some r -> k1 = k2;
}.

(** From [w] to [w']: well-formedness is kept, a cached key keeps its
    record, and a record keeps its instance. *)
Definition persists (w w' : World) : Prop :=
  (wf_world w -> wf_world w')
  /\ (forall key r, statusCache w !! key = Some r -> statusCache w' !! key = Some r)
  /\ (forall r rec, records w !! r = Some rec ->
        exists rec', records w' !! r = Some rec' /\ status rec' = status rec).

(** A state the process can be in: reached from process start by some
    sequence of actions. *)
Definition reachable (w : World) : Prop :=
  exists e acts, w = run acts (init e).

(** The three operations of the facade, to quantify over them. *)
Inductive facade_op : Type := Query | Revoke | Request.

Definition immediate_form (o : facade_op) : value -> M nat :=
  match o with
  | Query => querySync
  | Revoke => revokeSync
  | Request => requestSync
  end.

Definition deferred_form (o : facade_op) : value -> World -> promise nat * World :=
  match o with
  | Query => query
  | Revoke => revoke
  | Request => request
  end.

Definition engine_call (o : facade_op) : value -> M PermissionState :=
  match o with
  | Query => opQuery
  | Revoke => opRevoke
  | Request => opRequest
  end.

(** The op behind each operation of the facade. *)
Definition op_of (o : facade_op)
    : value -> Engine -> completion PermissionState * Engine :=
  match o with
  | Query => op_query_permission ops
  | Revoke => op_revoke_permission ops
  | Request => op_request_permission ops
  end.

(** The target of an observation. *)
Definition target_of (o : observation) : nat :=
  match o with
  | Dispatched target _ => target
  | Called target _ _ => target
  end.

(** Records and instances are created in pairs and cached at once: the
    two heaps have one length, the i-th record and the i-th instance point
    at each other, and every pair is cached under a key. *)
Record aligned (w : World) : Prop := {
  al_length : length (records w) = length (instances w);
  al_size : size (statusCache w) = length (records w);
  al_record : forall i rec, records w !! i = Some rec -> status rec = i;
  al_instance : forall i self, instances w !! i = Some self -> priv_state self = i;
  al_range : forall key r, statusCache w !! key = Some r -> r < length (records w);
  al_cached : forall i, i < length (records w) ->
    exists key, statusCache w !! key = Some i;
}.

End Permissions.

(** ** Instances used to evaluate the model *)

(** A scripted engine: the state is the list of answers still to come;
    every op hands out the next one ([prompt] once the script is over). *)
Definition scripted_op (desc : value) (script : list PermissionState)
    : completion PermissionState * list PermissionState :=
  match script with
  | [] => (Normal prompt, [])
  | st :: rest => (Normal st, rest)
  end.

Definition scripted : core_ops (list PermissionState) := {|
  op_query_permission := scripted_op;
  op_revoke_permission := scripted_op;
  op_request_permission := scripted_op;
|}.

(** A path conversion for the examples: a [file:] URL becomes the text
    after the scheme, another URL is refused, anything else is returned
    as it is. *)
Definition file_pathFromURL (v : value) : completion value :=
  match v with
  | VURL href =>
      if String.prefix "file://" href
      then Normal (VString (String.substring 7 (String.length href - 7) href))
      else Throw (TypeError "Must be a file URL.")
  | _ => Normal v
  end.

(** Inputs of the examples. *)
Definition w_start : world (list PermissionState) := init [granted; denied; prompt].

Definition d_tmp_url : value :=
  obj [("name", VString "read"); ("path", VURL "file:///tmp/a")].
Definition d_tmp : value :=
  obj [("name", VString "read"); ("path", VString "/tmp/a")].
Definition d_read : value := obj [("name", VString "read")].
Definition d_read_undefined : value :=
  obj [("name", VString "read"); ("path", VString "undefined")].
Definition d_net : value := obj [("name", VString "net")].
Definition d_net_empty : value := obj [("name", VString "net"); ("host", VString "")].
Definition d_example : value :=
  obj [("name", VString "net"); ("host", VString "example.com")].
Definition d_other : value :=
  obj [("name", VString "net"); ("host", VString "other.com")].

Definition silent : callback := fun _ _ => false.
Definition preventing : callback := fun _ _ => true.

(** * Properties *)

(** ** Key derivation *)

Lemma permissionNames_cases (k : string) :
  k ∈ permissionNames ->
  k = "read" \/ k = "write" \/ k = "net" \/ k = "env" \/ k = "sys"
  \/ k = "run" \/ k = "ffi" \/ k = "hrtime".
Proof.
  unfold permissionNames. rewrite !elem_of_cons, elem_of_nil. tauto.
Qed.

Lemma includes_permissionNames (v : value) :
  ArrayPrototypeIncludes permissionNames v = true <->
  exists k, v = VString k /\ k ∈ permissionNames.
Proof.
  unfold ArrayPrototypeIncludes. rewrite existsb_exists. split.
  - intros (k & Hin & Heq). exists k. destruct v; simpl in Heq; try discriminate.
    apply String.eqb_eq in Heq. subst. split; [done|].
    by apply list_elem_of_In.
  - intros (k & -> & Hin). exists k. split; [by apply list_elem_of_In|].
    simpl. apply String.eqb_refl.
Qed.

Lemma isValidDescriptor_inv (desc : value) :
  isValidDescriptor desc = true ->
  exists props k, desc = VObject props /\ props !! "name" = Some (VString k)
    /\ k ∈ permissionNames.
Proof.
  unfold isValidDescriptor. rewrite !andb_true_iff.
  intros [[_ _] Hinc]. apply includes_permissionNames in Hinc as (k & Hk & Hin).
  destruct desc; simpl in Hk; try discriminate.
  exists props, k. split; [done|]. split; [|done].
  destruct (props !! "name"); simpl in Hk; congruence.
Qed.

(** The key is the kind followed by the rendering of the identifier. *)
Lemma cacheKey_render (desc : value) (k : string) :
  k ∈ permissionNames -> get desc "name" = VString k ->
  cacheKey desc = let! i := identifier desc in Normal (render k i).
Proof.
  intros Hk Hn. unfold cacheKey, identifier, suffixed. rewrite Hn.
  apply permissionNames_cases in Hk.
  destruct Hk as [->|[->|[->|[->|[->|[->|[->| ->]]]]]]]; simpl;
    repeat match goal with
    | |- context [if ?b then _ else _] => destruct b
    end; simpl;
    try reflexivity;
    match goal with
    | |- context [ToString ?v] => destruct (ToString v); reflexivity
    end.
Qed.

Lemma length_append (s1 s2 : string) :
  String.length (s1 +:+ s2) = String.length s1 + String.length s2.
Proof. induction s1 as [|a s1 IH]; simpl; [reflexivity | by rewrite IH]. Qed.

Lemma append_inj_l (t s1 s2 : string) : s1 +:+ t = s2 +:+ t -> t <> "" -> s1 = s2.
Proof.
  intros H Ht. revert s2 H. induction s1 as [|a s1 IH]; intros [|b s2] H; simpl in H.
  - reflexivity.
  - exfalso. assert (Hl := f_equal String.length H). simpl in Hl.
    rewrite !length_append in Hl. simpl in Hl. lia.
  - exfalso. assert (Hl := f_equal String.length H). simpl in Hl.
    rewrite !length_append in Hl. simpl in Hl. lia.
  - injection H as -> H. f_equal. by apply IH.
Qed.

(** Distinct kinds, or distinct identifiers of one kind, render to distinct
    keys: no kind is a prefix of another, and the byte after the kind tells
    a suffixed key from a bare one. *)
Lemma render_inj (k1 k2 : string) (i1 i2 : option string) :
  k1 ∈ permissionNames -> k2 ∈ permissionNames ->
  render k1 i1 = render k2 i2 -> k1 = k2 /\ i1 = i2.
Proof.
  intros H1 H2 H.
  apply permissionNames_cases in H1. apply permissionNames_cases in H2.
  destruct H1 as [->|[->|[->|[->|[->|[->|[->| ->]]]]]]];
  destruct H2 as [->|[->|[->|[->|[->|[->|[->| ->]]]]]]];
  destruct i1 as [s1|], i2 as [s2|]; simpl in H; try discriminate H;
  split; try reflexivity;
  simplify_eq;
  match goal with
  | H : ?s1 +:+ "&" = ?s2 +:+ "&" |- _ =>
      f_equal; exact (append_inj_l "&" s1 s2 H ltac:(discriminate))
  end.
Qed.

(** Induction on values through the elements of arrays. *)
Lemma value_array_ind (P : value -> Prop) :
  (forall v, IsArray v = false -> P v) ->
  (forall l, Forall P l -> P (VArray l)) ->
  forall v, P v.
Proof.
  intros Hbase Harr. fix IH 1. intros v.
  destruct v as [| | b | r | s | i | h | elems | props];
    try (apply Hbase; reflexivity).
  apply Harr. induction elems as [|x rest IHrest]; constructor;
    [apply IH | exact IHrest].
Qed.

(** A failing string conversion fails with a TypeError. *)
Lemma ToString_throws_TypeError (v : value) (e : exn) :
  ToString v = Throw e -> exists msg, e = TypeError msg.
Proof.
  revert e. induction v as [v Hv | l Hl] using value_array_ind; intros e.
  - destruct v; simpl; try discriminate.
    + intros [= <-]. eauto.
    + case_bool_decide; [intros [= <-]; eauto | discriminate].
  - simpl. induction Hl as [|x rest Hx Hrest IH]; [discriminate|].
    destruct (match x with
              | VUndefined | VNull => Normal ""
              | _ => ToString x
              end) as [sx|ex] eqn:Ex; simpl.
    + destruct rest as [|y rest']; [discriminate|].
      intros H. apply IH.
      match type of H with
      | cbind ?c _ = _ => destruct c as [sr|er]
      end; simpl in H; [discriminate|]. exact H.
    + intros [= <-]. destruct x; try discriminate; exact (Hx _ Ex).
Qed.

(** ** The cache and the heaps *)

Section Properties.

Context {Engine : Type}.
Context (ops : core_ops Engine).
Context (pathFromURL : value -> completion value).

Local Abbreviation World := (world Engine).

Lemma run_callback_not_cancelable (cb : callback) seen (e : Event) :
  cancelable e = false -> run_callback cb seen e = e.
Proof.
  intros H. unfold run_callback, preventDefault. rewrite H. by destruct (cb e seen).
Qed.

Lemma invoke_listeners_spec target seen (ls : list callback) (e : Event) :
  invoke_listeners target seen ls e
  = (foldl (fun e cb => run_callback cb seen e) e ls,
     map (fun _ => Called target Listener seen) ls).
Proof.
  revert e. induction ls as [|cb ls IH]; intros e; simpl; [reflexivity|].
  by rewrite IH.
Qed.

Lemma foldl_not_cancelable seen (ls : list callback) (e : Event) :
  cancelable e = false -> foldl (fun e cb => run_callback cb seen e) e ls = e.
Proof.
  intros H. induction ls as [|cb ls IH]; simpl; [reflexivity|].
  by rewrite run_callback_not_cancelable.
Qed.

(** What one call of [dispatchEvent] does, in closed form. *)
Lemma dispatchEvent_unfold (this : nat) (event : Event) (w : World) :
  let self := instances w !!! this in
  let seen := PermissionStatus_state this w in
  let e1 := foldl (fun e cb => run_callback cb seen e) event (listeners self) in
  let calls := map (fun _ => Called this Listener seen) (listeners self) in
  PermissionStatus_dispatchEvent this event w =
    match defaultPrevented e1, onchange self with
    | false, Some handler =>
        (Normal (negb (defaultPrevented (run_callback handler seen e1)),
                 run_callback handler seen e1),
         log (Dispatched this event :: calls ++ [Called this Handler seen]) w)
    | _, _ => (Normal (negb (defaultPrevented e1), e1),
               log (Dispatched this event :: calls) w)
    end.
Proof.
  intros self seen e1 calls.
  unfold PermissionStatus_dispatchEvent, EventTarget_dispatchEvent.
  rewrite invoke_listeners_spec. fold self seen e1 calls.
  destruct (defaultPrevented e1) eqn:Hp, (onchange self) as [h|]; simpl;
    try reflexivity.
  unfold log; simpl. by rewrite <- app_assoc.
Qed.

Lemma dispatch_change (s : nat) (w : World) :
  PermissionStatus_dispatchEvent s (new_Event "change" false) w
  = (Normal (true, new_Event "change" false),
     log (Dispatched s (new_Event "change" false)
          :: change_calls s (PermissionStatus_state s w) (instances w !!! s)) w).
Proof.
  rewrite dispatchEvent_unfold. unfold change_calls.
  rewrite foldl_not_cancelable by reflexivity. simpl.
  destruct (onchange (instances w !!! s)) as [h|].
  - by rewrite run_callback_not_cancelable.
  - by rewrite app_nil_r.
Qed.

(** *** The three paths through [cache] *)

Lemma cache_hit_same (desc : value) (st : PermissionState) (w : World) key r :
  cacheKey desc = Normal key -> statusCache w !! key = Some r ->
  state (records w !!! r) = st ->
  cache desc st w = (Normal (status (records w !!! r)), w).
Proof.
  intros Hk Hc Hs. unfold cache, bind, lift. rewrite Hk, Hc.
  rewrite bool_decide_eq_false_2; [reflexivity|]. by intros [].
Qed.

Lemma cache_hit_changed (desc : value) (st : PermissionState) (w : World) key r :
  cacheKey desc = Normal key -> statusCache w !! key = Some r ->
  state (records w !!! r) <> st ->
  let rec := records w !!! r in
  let w1 := with_records (<[r := {| state := st; status := status rec |}]>) w in
  cache desc st w
  = (Normal (status rec),
     log (Dispatched (status rec) (new_Event "change" false)
          :: change_calls (status rec) (PermissionStatus_state (status rec) w1)
               (instances w !!! status rec)) w1).
Proof.
  intros Hk Hc Hs rec w1. unfold cache, bind, lift. rewrite Hk, Hc.
  rewrite bool_decide_eq_true_2 by done. fold rec w1.
  rewrite dispatch_change. reflexivity.
Qed.

Lemma cache_miss (desc : value) (st : PermissionState) (w : World) key :
  cacheKey desc = Normal key -> statusCache w !! key = None ->
  cache desc st w
  = (Normal (length (instances w)),
     Build_world (<[key := length (records w)]> (statusCache w))
       (records w ++ [{| state := st; status := length (instances w) |}])
       (instances w ++ [{| priv_state := length (records w); onchange := None;
                           listeners := [] |}])
       (engine w) (trace w)).
Proof.
  intros Hk Hc. unfold cache, bind, lift. rewrite Hk, Hc. reflexivity.
Qed.

Lemma cache_throws (desc : value) (st : PermissionState) (w : World) e :
  cacheKey desc = Throw e -> cache desc st w = (Throw e, w).
Proof. intros Hk. unfold cache, bind, lift. by rewrite Hk. Qed.

(** *** What every step keeps *)

Lemma persists_refl (w : World) : persists w w.
Proof. split; [done|]. split; [done|]. intros r rec H. by exists rec. Qed.

Lemma persists_trans (w1 w2 w3 : World) :
  persists w1 w2 -> persists w2 w3 -> persists w1 w3.
Proof.
  intros (Hw & Hc & Hr) (Hw' & Hc' & Hr'). split; [tauto|]. split; [by auto|].
  intros r rec H. destruct (Hr r rec H) as (rec' & H' & Hs).
  destruct (Hr' r rec' H') as (rec'' & H'' & Hs'). exists rec''. split; [done|].
  congruence.
Qed.

Lemma wf_frame (w w' : World) :
  statusCache w' = statusCache w -> records w' = records w ->
  instances w' = instances w -> wf_world w -> wf_world w'.
Proof.
  intros Hc Hr Hi [Hcached Hinj]. split.
  - intros key r. rewrite Hc, Hr, Hi. apply Hcached.
  - intros k1 k2 r. rewrite Hc. apply Hinj.
Qed.

Lemma persists_frame (w w' : World) :
  statusCache w' = statusCache w -> records w' = records w ->
  instances w' = instances w -> persists w w'.
Proof.
  intros Hc Hr Hi. split; [by apply wf_frame|]. split.
  - intros key r. by rewrite Hc.
  - intros r rec H. exists rec. by rewrite Hr.
Qed.

Lemma wf_init (e : Engine) : wf_world (init e).
Proof. split; intros *; simpl; by rewrite lookup_empty. Qed.

Lemma cache_persists (desc : value) (st : PermissionState) (w : World) :
  persists w (cache desc st w).2.
Proof.
  destruct (cacheKey desc) as [key|e] eqn:Hk;
    [|rewrite (cache_throws _ _ _ _ Hk); apply persists_refl].
  destruct (statusCache w !! key) as [r|] eqn:Hc.
  - destruct (decide (state (records w !!! r) = st)) as [Hs|Hs].
    { rewrite (cache_hit_same _ _ _ _ _ Hk Hc Hs). apply persists_refl. }
    rewrite (cache_hit_changed _ _ _ _ _ Hk Hc Hs). simpl.
    split; [|split]; simpl.
    + intros [Hcached Hinj]. split; simpl; [|exact Hinj].
      intros key' r' Hc'. destruct (Hcached key' r' Hc') as (rec' & self & Hr & Hi & Hp).
      destruct (decide (r' = r)) as [->|Hne].
      * eexists _, self. rewrite list_lookup_insert_eq by (by eapply lookup_lt_Some).
        split; [reflexivity|]. simpl.
        by rewrite (list_lookup_total_correct _ _ _ Hr).
      * exists rec', self. by rewrite list_lookup_insert_ne.
    + done.
    + intros r' rec' Hr. destruct (decide (r' = r)) as [->|Hne].
      * eexists. rewrite list_lookup_insert_eq by (by eapply lookup_lt_Some).
        split; [reflexivity|]. simpl.
        by rewrite (list_lookup_total_correct _ _ _ Hr).
      * exists rec'. by rewrite list_lookup_insert_ne.
  - rewrite (cache_miss _ _ _ _ Hk Hc). simpl.
    split; [|split]; simpl.
    + intros [Hcached Hinj]. split; simpl.
      * intros key' r'. rewrite lookup_insert. case_decide as Hkk.
        -- intros [= <-]. eexists _, _.
           rewrite list_lookup_middle by reflexivity. split; [reflexivity|]. simpl.
           by rewrite list_lookup_middle by reflexivity.
        -- intros Hc'. destruct (Hcached key' r' Hc') as (rec' & self & Hr & Hi & Hp).
           exists rec', self. rewrite !lookup_app_l by (by eapply lookup_lt_Some).
           done.
      * intros k1 k2 r'. rewrite !lookup_insert.
        repeat case_decide; subst; try done.
        -- intros [= <-] Hc'. destruct (Hcached k2 _ Hc') as (? & ? & Hr & _).
           apply lookup_lt_Some in Hr. lia.
        -- intros Hc' [= <-]. destruct (Hcached k1 _ Hc') as (? & ? & Hr & _).
           apply lookup_lt_Some in Hr. lia.
        -- apply Hinj.
    + intros key' r' Hc'. rewrite lookup_insert_ne; [done|]. congruence.
    + intros r' rec' Hr. exists rec'.
      by rewrite lookup_app_l by (by eapply lookup_lt_Some).
Qed.

(** A call of [cache] that returns leaves its key cached, pointing at a
    record whose instance is the one returned. *)
Lemma cache_result (desc : value) (st : PermissionState) (w w' : World) s :
  wf_world w -> cache desc st w = (Normal s, w') ->
  exists key r rec, cacheKey desc = Normal key /\ statusCache w' !! key = Some r
    /\ records w' !! r = Some rec /\ status rec = s.
Proof.
  intros [Hcached Hinj] H.
  destruct (cacheKey desc) as [key|e] eqn:Hk;
    [|rewrite (cache_throws _ _ _ _ Hk) in H; discriminate].
  exists key. destruct (statusCache w !! key) as [r|] eqn:Hc.
  - destruct (Hcached key r Hc) as (rec & self & Hr & _).
    destruct (decide (state (records w !!! r) = st)) as [Hs|Hs].
    + rewrite (cache_hit_same _ _ _ _ _ Hk Hc Hs) in H. injection H as <- <-.
      exists r, rec. rewrite (list_lookup_total_correct _ _ _ Hr). done.
    + rewrite (cache_hit_changed _ _ _ _ _ Hk Hc Hs) in H. injection H as <- <-.
      eexists r, _. simpl. split; [done|]. split; [done|].
      rewrite list_lookup_insert_eq by (by eapply lookup_lt_Some). done.
  - rewrite (cache_miss _ _ _ _ Hk Hc) in H. injection H as <- <-.
    eexists _, _. simpl. rewrite lookup_insert_eq.
    rewrite list_lookup_middle by reflexivity. done.
Qed.

(** A key that is cached decides the instance returned. *)
Lemma cache_cached (desc : value) (st : PermissionState) (w : World) key r rec :
  cacheKey desc = Normal key -> statusCache w !! key = Some r ->
  records w !! r = Some rec ->
  (cache desc st w).1 = Normal (status rec).
Proof.
  intros Hk Hc Hr. apply list_lookup_total_correct in Hr.
  destruct (decide (state (records w !!! r) = st)) as [Hs|Hs].
  - rewrite (cache_hit_same _ _ _ _ _ Hk Hc Hs). simpl. by rewrite Hr.
  - rewrite (cache_hit_changed _ _ _ _ _ Hk Hc Hs). simpl. by rewrite Hr.
Qed.

(** The instance returned for a key is the instance of no other key. *)
Lemma cache_distinct (desc : value) (st : PermissionState) (w w' : World) key s
    key' r' rec' :
  wf_world w -> cacheKey desc = Normal key -> cache desc st w = (Normal s, w') ->
  key' <> key -> statusCache w !! key' = Some r' -> records w !! r' = Some rec' ->
  status rec' <> s.
Proof.
  intros [Hcached Hinj] Hk H Hne Hc' Hr'.
  destruct (Hcached key' r' Hc') as (rec0 & self' & Hr0 & Hi' & Hp').
  assert (rec0 = rec') as -> by congruence.
  destruct (statusCache w !! key) as [r|] eqn:Hc.
  - destruct (Hcached key r Hc) as (rec & self & Hr & Hi & Hp).
    assert (s = status rec) as ->.
    { pose proof (cache_cached desc st w key r rec Hk Hc Hr) as E.
      rewrite H in E. simpl in E. congruence. }
    intros Heq. rewrite Heq in Hi'. apply Hne. apply (Hinj key' key r'); [done|].
    congruence.
  - rewrite (cache_miss _ _ _ _ Hk Hc) in H. injection H as <- _.
    apply lookup_lt_Some in Hi'. lia.
Qed.

(** *** The immediate forms *)

Lemma immediate_form_unfold (o : facade_op) (desc : value) :
  immediate_form ops pathFromURL o desc
  = if negb (isValidDescriptor desc) then throw (invalidDescriptor desc)
    else bind (lift (formDescriptor pathFromURL desc))
           (fun desc' => bind (engine_call ops o desc') (fun st => cache desc' st)).
Proof. by destruct o. Qed.

Lemma engine_call_frame (o : facade_op) (desc : value) (w : World) :
  exists c e, engine_call ops o desc w = (c, with_engine e w).
Proof.
  destruct o; unfold engine_call, opQuery, opRevoke, opRequest, call_op;
    match goal with |- context [?f ops desc (engine w)] =>
      destruct (f ops desc (engine w)) as [c e] end; by exists c, e.
Qed.

(** A facade call that returns went through validation, normalisation, the
    engine and the cache, in this order. *)
Lemma immediate_form_returns (o : facade_op) (desc : value) (w w' : World) s :
  immediate_form ops pathFromURL o desc w = (Normal s, w') ->
  exists n st e, isValidDescriptor desc = true
    /\ formDescriptor pathFromURL desc = Normal n
    /\ cache n st (with_engine e w) = (Normal s, w').
Proof.
  rewrite immediate_form_unfold.
  destruct (isValidDescriptor desc); simpl; [|discriminate].
  unfold bind at 1, lift.
  destruct (formDescriptor pathFromURL desc) as [n|?]; [|discriminate].
  unfold bind. destruct (engine_call_frame o n w) as (c & e & ->).
  destruct c as [st|?]; [|discriminate]. intros H. by exists n, st, e.
Qed.

Lemma immediate_form_persists (o : facade_op) (desc : value) (w : World) :
  persists w (immediate_form ops pathFromURL o desc w).2.
Proof.
  rewrite immediate_form_unfold.
  destruct (isValidDescriptor desc); simpl; [|apply persists_refl].
  unfold bind at 1, lift.
  destruct (formDescriptor pathFromURL desc) as [n|?]; [|apply persists_refl].
  unfold bind. destruct (engine_call_frame o n w) as (c & e & ->).
  destruct c as [st|?]; [|by apply persists_frame].
  eapply persists_trans; [|apply cache_persists]. by apply persists_frame.
Qed.

Lemma perform_persists (a : action) (w : World) :
  persists w (perform ops pathFromURL a w).
Proof.
  destruct a as [d|d|d|t h|t cb|t e]; simpl.
  - apply (immediate_form_persists Query).
  - apply (immediate_form_persists Revoke).
  - apply (immediate_form_persists Request).
  - split; [|split]; simpl; [|done|intros r rec ?; by exists rec].
    intros [Hcached Hinj]. split; [|exact Hinj]. simpl.
    intros key r Hc. destruct (Hcached key r Hc) as (rec & self & Hr & Hi & Hp).
    exists rec. destruct (decide (t = status rec)) as [->|Hne].
    + eexists. rewrite list_lookup_alter_eq, Hi. simpl. done.
    + exists self. by rewrite list_lookup_alter_ne.
  - split; [|split]; simpl; [|done|intros r rec ?; by exists rec].
    intros [Hcached Hinj]. split; [|exact Hinj]. simpl.
    intros key r Hc. destruct (Hcached key r Hc) as (rec & self & Hr & Hi & Hp).
    exists rec. destruct (decide (t = status rec)) as [->|Hne].
    + eexists. rewrite list_lookup_alter_eq, Hi. simpl. done.
    + exists self. by rewrite list_lookup_alter_ne.
  - rewrite dispatchEvent_unfold.
    repeat match goal with |- context [match ?x with _ => _ end] => destruct x end;
      by apply persists_frame.
Qed.

Lemma run_persists (acts : list action) (w : World) :
  persists w (run ops pathFromURL acts w).
Proof.
  revert w. induction acts as [|a acts IH]; intros w; simpl.
  - apply persists_refl.
  - eapply persists_trans; [apply perform_persists|apply IH].
Qed.

Lemma reachable_wf (w : World) : reachable ops pathFromURL w -> wf_world w.
Proof.
  intros (e & acts & ->). apply run_persists, wf_init.
Qed.

(** *** One key, one instance; two keys, two instances *)

Lemma same_key_same_instance (n1 n2 : value) key st1 st2 (w w1 w1' w2 : World) s1 s2 :
  wf_world w -> cacheKey n1 = Normal key -> cacheKey n2 = Normal key ->
  cache n1 st1 w = (Normal s1, w1) -> persists w1 w1' ->
  cache n2 st2 w1' = (Normal s2, w2) -> s1 = s2.
Proof.
  intros Hwf Hk1 Hk2 H1 (_ & Hc & Hr) H2.
  destruct (cache_result _ _ _ _ _ Hwf H1) as (key' & r & rec & Hk & Hc1 & Hr1 & <-).
  assert (key' = key) as -> by congruence.
  destruct (Hr r rec Hr1) as (rec' & Hr' & <-).
  pose proof (cache_cached n2 st2 w1' key r rec' Hk2 (Hc _ _ Hc1) Hr') as E.
  rewrite H2 in E. simpl in E. congruence.
Qed.

Lemma distinct_keys_distinct_instances (n1 n2 : value) key1 key2 st1 st2
    (w w1 w1' w2 : World) s1 s2 :
  wf_world w -> cacheKey n1 = Normal key1 -> cacheKey n2 = Normal key2 ->
  key1 <> key2 ->
  cache n1 st1 w = (Normal s1, w1) -> persists w1 w1' ->
  cache n2 st2 w1' = (Normal s2, w2) -> s1 <> s2.
Proof.
  intros Hwf Hk1 Hk2 Hne H1 (Hwf' & Hc & Hr) H2.
  destruct (cache_result _ _ _ _ _ Hwf H1) as (key' & r & rec & Hk & Hc1 & Hr1 & <-).
  assert (key' = key1) as -> by congruence.
  destruct (Hr r rec Hr1) as (rec' & Hr' & <-).
  assert (wf_world w1') as Hwf1'.
  { apply Hwf'. pose proof (cache_persists n1 st1 w) as (Hp & _).
    rewrite H1 in Hp. by apply Hp. }
  exact (cache_distinct n2 st2 w1' w2 key2 s2 key1 r rec' Hwf1' Hk2 H2 Hne
           (Hc _ _ Hc1) Hr').
Qed.

Local Ltac kind_case kind s Hf :=
  destruct (String.eqb_spec kind s) as [->|?]; simpl in Hf |- *;
  [rewrite (Hf _ eq_refl); reflexivity|].

Lemma cacheKey_same_capability (n1 n2 : value) :
  same_capability n1 n2 -> cacheKey n1 = cacheKey n2.
Proof.
  intros (kind & H1 & H2 & Hf).
  destruct n1 as [| | | | | | | |p1]; try discriminate.
  destruct n2 as [| | | | | | | |p2]; try discriminate.
  unfold cacheKey. rewrite H1, H2. simpl strictEqString.
  unfold identifying_field in Hf. simpl in Hf. unfold ReflectHas, get.
  kind_case kind "read" Hf. kind_case kind "write" Hf. kind_case kind "ffi" Hf.
  kind_case kind "net" Hf. kind_case kind "run" Hf. kind_case kind "env" Hf.
  kind_case kind "sys" Hf. reflexivity.
Qed.


(** C1. Identity: from any reachable state, two facade calls (each any of
    querySync, requestSync, revokeSync, with any actions in between) whose
    descriptors normalise to the same kind and the same identifying
    sub-field return the same PermissionStatus instance. *)
Theorem identity_of_status_instance (o1 o2 : facade_op) (d1 d2 n1 n2 : value)
    (acts : list action) (w w1 w2 : World) (s1 s2 : nat) :
  reachable ops pathFromURL w ->
  formDescriptor pathFromURL d1 = Normal n1 ->
  formDescriptor pathFromURL d2 = Normal n2 ->
  same_capability n1 n2 ->
  immediate_form ops pathFromURL o1 d1 w = (Normal s1, w1) ->
  immediate_form ops pathFromURL o2 d2 (run ops pathFromURL acts w1) = (Normal s2, w2) ->
  s1 = s2.
Proof.
  intros Hw Hn1 Hn2 Hsame H1 H2.
  apply immediate_form_returns in H1 as (n1' & st1 & e1 & _ & Hn1' & H1).
  apply immediate_form_returns in H2 as (n2' & st2 & e2 & _ & Hn2' & H2).
  assert (n1' = n1) as -> by congruence. assert (n2' = n2) as -> by congruence.
  apply reachable_wf in Hw.
  assert (wf_world (with_engine e1 w)) as Hwf by (by apply (wf_frame w)).
  destruct (cache_result _ _ _ _ _ Hwf H1) as (key & _ & _ & Hk & _).
  eapply (same_key_same_instance n1 n2 key); try eassumption.
  - by rewrite <- (cacheKey_same_capability n1 n2).
  - eapply persists_trans; [apply run_persists|]. by apply persists_frame.
Qed.

Lemma valid_cacheKey (n : value) :
  isValidDescriptor n = true ->
  exists k, k ∈ permissionNames /\ get n "name" = VString k
    /\ cacheKey n = let! i := identifier n in Normal (render k i).
Proof.
  intros Hv. apply isValidDescriptor_inv in Hv as (props & k & -> & Hn & Hk).
  assert (get (VObject props) "name" = VString k) as Hg by (simpl; by rewrite Hn).
  exists k. split; [done|]. split; [done|]. by apply cacheKey_render.
Qed.

(** C2 (amended). Key partition: two valid normalised descriptors that
    differ in kind, or in the identifying sub-field as the key derivation
    reads it (the string rendering of a present path, or of a truthy host,
    command, variable or kind; none otherwise), derive distinct keys, and
    facade calls for them that return, return distinct instances. *)
Theorem key_partition (n1 n2 : value) (i1 i2 : option string) :
  isValidDescriptor n1 = true -> isValidDescriptor n2 = true ->
  identifier n1 = Normal i1 -> identifier n2 = Normal i2 ->
  get n1 "name" <> get n2 "name" \/ i1 <> i2 ->
  (exists key1 key2, cacheKey n1 = Normal key1 /\ cacheKey n2 = Normal key2
     /\ key1 <> key2)
  /\ (forall (o1 o2 : facade_op) (d1 d2 : value) (acts : list action)
         (w w1 w2 : World) (s1 s2 : nat),
        reachable ops pathFromURL w ->
        formDescriptor pathFromURL d1 = Normal n1 ->
        formDescriptor pathFromURL d2 = Normal n2 ->
        immediate_form ops pathFromURL o1 d1 w = (Normal s1, w1) ->
        immediate_form ops pathFromURL o2 d2 (run ops pathFromURL acts w1)
          = (Normal s2, w2) ->
        s1 <> s2).
Proof.
  intros Hv1 Hv2 Hi1 Hi2 Hdiff.
  destruct (valid_cacheKey n1 Hv1) as (k1 & Hk1 & Hn1 & Hc1).
  destruct (valid_cacheKey n2 Hv2) as (k2 & Hk2 & Hn2 & Hc2).
  rewrite Hi1 in Hc1. rewrite Hi2 in Hc2. simpl in Hc1, Hc2.
  assert (render k1 i1 <> render k2 i2) as Hne.
  { intros Heq. apply render_inj in Heq as [-> ->]; [|done..].
    destruct Hdiff as [Hd|Hd]; [apply Hd; congruence|by apply Hd]. }
  split; [by eauto|].
  intros o1 o2 d1 d2 acts w w1 w2 s1 s2 Hw Hf1 Hf2 H1 H2.
  apply immediate_form_returns in H1 as (n1' & st1 & e1 & _ & Hn1' & H1).
  apply immediate_form_returns in H2 as (n2' & st2 & e2 & _ & Hn2' & H2).
  assert (n1' = n1) as -> by congruence. assert (n2' = n2) as -> by congruence.
  apply reachable_wf in Hw.
  assert (wf_world (with_engine e1 w)) as Hwf by (by apply (wf_frame w)).
  eapply (distinct_keys_distinct_instances n1 n2); try eassumption.
  eapply persists_trans; [apply run_persists|]. by apply persists_frame.
Qed.

(** C3. Monotone notification: when the key of the descriptor is already
    cached, a resolution with the stored state changes nothing and returns
    the existing instance; a resolution with a different state writes the
    new state into the record, then dispatches exactly one non-cancelable
    change event on the existing instance, every callback of which reads
    the new state, and returns that instance. *)
Theorem monotone_notification (desc : value) (st : PermissionState) (w : World)
    (key : string) (r : nat) :
  reachable ops pathFromURL w ->
  cacheKey desc = Normal key -> statusCache w !! key = Some r ->
  let rec := records w !!! r in
  let s := status rec in
  (state rec = st -> cache desc st w = (Normal s, w))
  /\ (state rec <> st ->
       exists w', cache desc st w = (Normal s, w')
         /\ statusCache w' = statusCache w /\ instances w' = instances w
         /\ engine w' = engine w
         /\ records w' = <[r := {| state := st; status := s |}]> (records w)
         /\ PermissionStatus_state s w' = st
         /\ trace w' = trace w
              ++ Dispatched s (new_Event "change" false)
              :: change_calls s st (instances w !!! s)).
Proof.
  intros Hw Hk Hc rec s. split; intros Hs.
  - by apply (cache_hit_same desc st w key r).
  - rewrite (cache_hit_changed desc st w key r Hk Hc Hs). fold rec s.
    apply reachable_wf in Hw. destruct Hw as [Hcached _].
    destruct (Hcached key r Hc) as (rec' & self & Hr & Hi & Hp).
    assert (rec' = rec) as -> by (symmetry; by apply list_lookup_total_correct).
    assert (PermissionStatus_state s
              (with_records (<[r := {| state := st; status := s |}]>) w) = st) as Hst.
    { unfold PermissionStatus_state. simpl. fold s in Hi.
      rewrite (list_lookup_total_correct _ _ _ Hi), Hp.
      rewrite list_lookup_total_insert_eq by (by eapply lookup_lt_Some). done. }
    eexists. split; [reflexivity|]. simpl. rewrite Hst. done.
Qed.

(** *** The deferred forms *)

Lemma deferred_form_unfold (o : facade_op) (desc : value) (w : World) :
  deferred_form ops pathFromURL o desc w
  = match immediate_form ops pathFromURL o desc w with
    | (Normal s, w') => (Fulfilled s, w')
    | (Throw error, w') => (Rejected error, w')
    end.
Proof. by destruct o. Qed.

Lemma invalidDescriptor_TypeError (desc : value) :
  exists msg, invalidDescriptor desc = TypeError msg.
Proof.
  unfold invalidDescriptor.
  destruct (ToString (get desc "name")) as [s|e] eqn:H; [by eauto|].
  by apply ToString_throws_TypeError in H.
Qed.

(** C4. Validation: an argument that is not an object, is null, or whose
    name is none of the eight kinds makes each immediate form throw a
    TypeError and each deferred form return a promise rejected with it,
    the process state (engine, cache, heaps, trace) left as it was. *)
Theorem validation (o : facade_op) (desc : value) (w : World) :
  typeof desc <> "object" \/ desc = VNull
  \/ (forall k, k ∈ permissionNames -> get desc "name" <> VString k) ->
  exists msg,
    immediate_form ops pathFromURL o desc w = (Throw (TypeError msg), w)
    /\ deferred_form ops pathFromURL o desc w = (Rejected (TypeError msg), w).
Proof.
  intros H.
  assert (isValidDescriptor desc = false) as Hv.
  { apply not_true_is_false. intros Hv.
    apply isValidDescriptor_inv in Hv as (props & k & -> & Hn & Hk).
    destruct H as [H|[H|H]]; [by apply H|discriminate|].
    apply (H k Hk). simpl. by rewrite Hn. }
  destruct (invalidDescriptor_TypeError desc) as (msg & Hmsg). exists msg.
  rewrite deferred_form_unfold, immediate_form_unfold, Hv. simpl.
  unfold throw. by rewrite Hmsg.
Qed.

(** C9. Deferred-immediate equivalence: each deferred form is fulfilled
    with the instance its immediate form returns, or rejected with the
    error it throws, and leaves the process in the same state. *)
Theorem deferred_immediate_equivalence (o : facade_op) (desc : value) (w : World) :
  (forall s w', immediate_form ops pathFromURL o desc w = (Normal s, w')
     <-> deferred_form ops pathFromURL o desc w = (Fulfilled s, w'))
  /\ (forall e w', immediate_form ops pathFromURL o desc w = (Throw e, w')
        <-> deferred_form ops pathFromURL o desc w = (Rejected e, w'))
  /\ (deferred_form ops pathFromURL o desc w).2
      = (immediate_form ops pathFromURL o desc w).2.
Proof.
  rewrite deferred_form_unfold.
  destruct (immediate_form ops pathFromURL o desc w) as [[s0|e0] w0]; simpl.
  - split; [|split]; [|split; intros; discriminate|reflexivity].
    intros s w'. split; intros [= -> ->]; reflexivity.
  - split; [|split]; [split; intros; discriminate| |reflexivity].
    intros e w'. split; intros [= -> ->]; reflexivity.
Qed.


(** The cache, which passes the token, does construct. *)
Lemma constructor_with_token (st : nat) (w : World) :
  PermissionStatus_constructor st illegalConstructorKey w
  = (Normal (length (instances w)),
     with_instances
       (fun l => l ++ [{| priv_state := st; onchange := None; listeners := [] |}]) w).
Proof. reflexivity. Qed.

(** C6. Presence against truthiness: for read, write and ffi a present
    path renders into the key even when it is the empty string or
    undefined; for net, run, env and sys an empty-string sub-field derives
    the bare key, the same as a descriptor without the field, and the two
    share one instance. *)
Theorem presence_asymmetry :
  (forall props kind,
     kind ∈ ["read"; "write"; "ffi"] -> props !! "name" = Some (VString kind) ->
     (props !! "path" = Some (VString "") ->
      cacheKey (VObject props) = Normal (kind +:+ "-&"))
     /\ (props !! "path" = Some VUndefined ->
         cacheKey (VObject props) = Normal (kind +:+ "-undefined&")))
  /\ (forall props kind f,
       kind ∈ ["net"; "run"; "env"; "sys"] ->
       props !! "name" = Some (VString kind) -> identifying_field kind = Some f ->
       props !! f = Some (VString "") \/ props !! f = None ->
       cacheKey (VObject props) = Normal (kind +:+ "$"))
  /\ (forall p1 p2 kind f st1 st2 (acts : list action) (w w1 w2 : World) s1 s2,
       kind ∈ ["net"; "run"; "env"; "sys"] ->
       p1 !! "name" = Some (VString kind) -> p2 !! "name" = Some (VString kind) ->
       identifying_field kind = Some f ->
       p1 !! f = Some (VString "") -> p2 !! f = None ->
       reachable ops pathFromURL w ->
       cache (VObject p1) st1 w = (Normal s1, w1) ->
       cache (VObject p2) st2 (run ops pathFromURL acts w1) = (Normal s2, w2) ->
       s1 = s2).
Proof.
  assert (forall props kind f,
       kind ∈ ["net"; "run"; "env"; "sys"] ->
       props !! "name" = Some (VString kind) -> identifying_field kind = Some f ->
       props !! f = Some (VString "") \/ props !! f = None ->
       cacheKey (VObject props) = Normal (kind +:+ "$")) as Hbare.
  { intros props kind f Hk Hn Hf Hv. rewrite !elem_of_cons, elem_of_nil in Hk.
    unfold cacheKey, ReflectHas, get. rewrite Hn.
    destruct Hk as [->|[->|[->|[->|[]]]]]; injection Hf as <-; simpl;
      destruct Hv as [-> | ->]; reflexivity. }
  split; [|split; [exact Hbare|]].
  - intros props kind Hk Hn. rewrite !elem_of_cons, elem_of_nil in Hk.
    unfold cacheKey, ReflectHas, get, suffixed. rewrite Hn.
    destruct Hk as [->|[->|[->|[]]]]; split; intros ->; reflexivity.
  - intros p1 p2 kind f st1 st2 acts w w1 w2 s1 s2 Hk Hn1 Hn2 Hf Hv1 Hv2 Hw H1 H2.
    apply reachable_wf in Hw.
    eapply (same_key_same_instance (VObject p1) (VObject p2)); try eassumption.
    + eapply Hbare; eauto.
    + eapply Hbare; eauto.
    + apply run_persists.
Qed.

(** C7 (amended). Dispatch: dispatchEvent runs every registered listener
    in order; it then runs the onchange handler only if one is set and the
    event is not prevented once the listeners have run; it returns true
    exactly when the event is not prevented as the call ends; and an event
    that is not cancelable comes out as it went in. *)
Theorem dispatch_semantics (this : nat) (event : Event) (w : World) :
  let self := instances w !!! this in
  let seen := PermissionStatus_state this w in
  let e1 := foldl (fun e cb => run_callback cb seen e) event (listeners self) in
  exists (e' : Event) (handler_calls : list observation),
    PermissionStatus_dispatchEvent this event w
    = (Normal (negb (defaultPrevented e'), e'),
       log (Dispatched this event
            :: map (fun _ => Called this Listener seen) (listeners self)
            ++ handler_calls) w)
    /\ match onchange self with
       | Some handler =>
           if defaultPrevented e1
           then handler_calls = [] /\ e' = e1
           else handler_calls = [Called this Handler seen]
                /\ e' = run_callback handler seen e1
       | None => handler_calls = [] /\ e' = e1
       end
    /\ (cancelable event = false -> e' = event).
Proof.
  intros self seen e1. rewrite dispatchEvent_unfold. fold self seen e1.
  assert (cancelable event = false -> e1 = event) as Hnc
    by (intros H; by apply foldl_not_cancelable).
  destruct (defaultPrevented e1) eqn:Hp, (onchange self) as [h|].
  - exists e1, []. rewrite app_nil_r, Hp. done.
  - exists e1, []. rewrite app_nil_r, Hp. done.
  - exists (run_callback h seen e1), [Called this Handler seen].
    split; [done|]. split; [done|]. intros Hc. rewrite (Hnc Hc).
    by apply run_callback_not_cancelable.
  - exists e1, []. rewrite app_nil_r, Hp. done.
Qed.

(** *** serializePermissions *)

Lemma ArrayPrototypeMap_Forall2 (f : value -> completion value) (l l' : list value) :
  ArrayPrototypeMap l f = Normal l' <-> Forall2 (fun x y => f x = Normal y) l l'.
Proof.
  revert l'. induction l as [|x l IH]; intros l'; simpl.
  - split; [intros [= <-]; constructor | intros H; by inversion H].
  - destruct (f x) as [y|e] eqn:Hx; simpl.
    + destruct (ArrayPrototypeMap l f) as [ys|e] eqn:Hl; simpl.
      * split.
        -- intros [= <-]. constructor; [done|]. by apply IH.
        -- intros H. inversion H as [|? y' ? ys' Hy Hys]; subst.
           apply IH in Hys. congruence.
      * split; [discriminate|]. intros H. inversion H as [|? y' ? ys' Hy Hys]; subst.
        apply IH in Hys. discriminate.
    + split; [discriminate|]. intros H. inversion H; congruence.
Qed.

Lemma ArrayPrototypeMap_total (f : value -> completion value) (l : list value) :
  (forall x, x ∈ l -> exists y, f x = Normal y) ->
  exists l', ArrayPrototypeMap l f = Normal l'.
Proof.
  induction l as [|x l IH]; intros H; simpl; [by eauto|].
  destruct (H x) as (y & ->); [by left|]. simpl.
  destruct IH as (ys & ->); [|by simpl; eauto].
  intros x' Hx'. apply H. by right.
Qed.

Lemma paths_body (v sp : value) (key : string) :
  (if IsArray v then
     let! l := ArrayPrototypeMap (elements v) (fun path => pathFromURL path) in
     Normal (set sp key (VArray l))
   else Normal (set sp key v))
  = let! x := convert_paths pathFromURL v in Normal (set sp key x).
Proof.
  destruct v; try reflexivity. simpl.
  change (fun path => pathFromURL path) with pathFromURL.
  by destruct (ArrayPrototypeMap elems pathFromURL).
Qed.

Lemma copy_body (v sp : value) (key : string) :
  (if IsArray v then Normal (set sp key (VArray (ArrayPrototypeSlice (elements v))))
   else Normal (set sp key v))
  = Normal (set sp key v).
Proof. by destruct v. Qed.

Lemma serializePermissions_object (p : value) :
  typeof p = "object" -> p <> VNull ->
  serializePermissions pathFromURL p
  = let! a := convert_paths pathFromURL (get p "read") in
    let! b := convert_paths pathFromURL (get p "write") in
    let! c := convert_paths pathFromURL (get p "run") in
    let! d := convert_paths pathFromURL (get p "ffi") in
    Normal (obj [("read", a); ("write", b); ("run", c); ("ffi", d);
                 ("env", get p "env"); ("hrtime", get p "hrtime");
                 ("net", get p "net"); ("sys", get p "sys")]).
Proof.
  intros Ht Hn. unfold serializePermissions. rewrite Ht.
  assert (looseNeqNull p = true) as -> by (destruct p; done).
  cbn [String.eqb Ascii.eqb Bool.eqb andb for_of].
  rewrite !paths_body.
  destruct (convert_paths pathFromURL (get p "read")) as [a|?]; [|reflexivity].
  cbn [cbind]. rewrite !paths_body.
  destruct (convert_paths pathFromURL (get p "write")) as [b|?]; [|reflexivity].
  cbn [cbind]. rewrite !paths_body.
  destruct (convert_paths pathFromURL (get p "run")) as [c|?]; [|reflexivity].
  cbn [cbind]. rewrite !paths_body.
  destruct (convert_paths pathFromURL (get p "ffi")) as [d|?]; [|reflexivity].
  cbn [cbind]. rewrite !copy_body. cbn [cbind]. rewrite !copy_body.
  cbn [cbind]. rewrite !copy_body. cbn [cbind]. rewrite !copy_body.
  cbn [cbind set obj]. f_equal.
Qed.

Lemma convert_paths_spec (v x : value) :
  convert_paths pathFromURL v = Normal x ->
  (forall l, v = VArray l ->
     exists l', x = VArray l' /\ Forall2 (fun a b => pathFromURL a = Normal b) l l')
  /\ (IsArray v = false -> x = v).
Proof.
  intros H. split.
  - intros l ->. simpl in H.
    destruct (ArrayPrototypeMap l pathFromURL) as [l'|] eqn:Hl; [|discriminate].
    injection H as <-. exists l'. split; [done|]. by apply ArrayPrototypeMap_Forall2.
  - intros Hv. destruct v; try discriminate; simpl in H; congruence.
Qed.

Lemma convert_paths_total (v : value) :
  (forall l x, v = VArray l -> x ∈ l -> exists y, pathFromURL x = Normal y) ->
  exists x, convert_paths pathFromURL v = Normal x.
Proof.
  intros H. destruct v; simpl; try by eauto.
  destruct (ArrayPrototypeMap_total pathFromURL elems) as (l' & ->); [|by simpl; eauto].
  intros x Hx. by apply (H elems).
Qed.

(** C8. serializePermissions: an input that is not a non-null object is
    returned as it is. For a non-null object, a result, when there is one,
    holds under each of read, write, run and ffi the array of
    pathFromURL-converted elements when the input holds an array there and
    the input's value otherwise, and under each of env, hrtime, net and sys
    the input's value (an array by its elements); and there is a result
    whenever pathFromURL converts every element it is given. *)
Theorem serializePermissions_spec (p : value) :
  (typeof p <> "object" \/ p = VNull \/ p = VUndefined ->
   serializePermissions pathFromURL p = Normal p)
  /\ (typeof p = "object" -> p <> VNull ->
      (forall r, serializePermissions pathFromURL p = Normal r ->
         (forall key, key ∈ ["read"; "write"; "run"; "ffi"] ->
            (forall l, get p key = VArray l ->
               exists l', get r key = VArray l'
                 /\ Forall2 (fun x y => pathFromURL x = Normal y) l l')
            /\ (IsArray (get p key) = false -> get r key = get p key))
         /\ (forall key, key ∈ ["env"; "hrtime"; "net"; "sys"] ->
              get r key = get p key))
      /\ ((forall key l x, key ∈ ["read"; "write"; "run"; "ffi"] ->
             get p key = VArray l -> x ∈ l -> exists y, pathFromURL x = Normal y) ->
          exists r, serializePermissions pathFromURL p = Normal r)).
Proof.
  split.
  - intros H. unfold serializePermissions.
    destruct (String.eqb_spec (typeof p) "object") as [Ht|Ht]; [|reflexivity].
    destruct H as [H|[->| ->]]; [done|reflexivity..].
  - intros Ht Hn. rewrite (serializePermissions_object p Ht Hn). split.
    + intros r H.
      destruct (convert_paths pathFromURL (get p "read")) as [a|] eqn:Ha; [|discriminate].
      destruct (convert_paths pathFromURL (get p "write")) as [b|] eqn:Hb; [|discriminate].
      destruct (convert_paths pathFromURL (get p "run")) as [c|] eqn:Hc; [|discriminate].
      destruct (convert_paths pathFromURL (get p "ffi")) as [d|] eqn:Hd; [|discriminate].
      injection H as <-.
      apply convert_paths_spec in Ha, Hb, Hc, Hd.
      split; intros key Hkey; rewrite !elem_of_cons, elem_of_nil in Hkey.
      * destruct Hkey as [->|[->|[->|[->|[]]]]]; assumption.
      * destruct Hkey as [->|[->|[->|[->|[]]]]]; reflexivity.
    + intros Hall.
      destruct (convert_paths_total (get p "read")) as (a & ->);
        [intros l x; apply Hall; set_solver|].
      destruct (convert_paths_total (get p "write")) as (b & ->);
        [intros l x; apply Hall; set_solver|].
      destruct (convert_paths_total (get p "run")) as (c & ->);
        [intros l x; apply Hall; set_solver|].
      destruct (convert_paths_total (get p "ffi")) as (d & ->);
        [intros l x; apply Hall; set_solver|].
      simpl. by eauto.
Qed.

(** Whatever [pathFromURL] is, a read, write or ffi descriptor that went
    through the facade's normalisation never derives the bare key: the
    assignment of line 172 makes [path] present. *)
Lemma normalised_path_kind_never_bare (props : gmap string value) (kind : string)
    (n : value) (key : string) :
  kind ∈ ["read"; "write"; "ffi"] -> props !! "name" = Some (VString kind) ->
  formDescriptor pathFromURL (VObject props) = Normal n ->
  cacheKey n = Normal key -> key <> kind +:+ "$".
Proof.
  intros Hk Hn Hf Hkey. rewrite !elem_of_cons, elem_of_nil in Hk.
  unfold formDescriptor, get in Hf. rewrite Hn in Hf.
  destruct Hk as [->|[->|[->|[]]]]; simpl in Hf;
    destruct (pathFromURL _) as [pth|]; simpl in Hf; try discriminate;
    injection Hf as <-;
    unfold cacheKey, ReflectHas, get, suffixed in Hkey;
    rewrite lookup_insert_ne, Hn, !lookup_insert_eq in Hkey by done;
    simpl in Hkey; destruct (ToString pth); simpl in Hkey; try discriminate;
    injection Hkey as <-; discriminate.
Qed.

End Properties.


(** * Evaluations at concrete inputs *)

Example cacheKey_read_path : cacheKey d_tmp = Normal "read-/tmp/a&".
Proof. vm_compute. reflexivity. Qed.

(** An hrtime descriptor derives the bare key whatever else it carries. *)
Example cacheKey_hrtime_extraneous :
  cacheKey (obj [("name", VString "hrtime"); ("path", VString "x");
                 ("host", VString "y")]) = Normal "hrtime$".
Proof. vm_compute. reflexivity. Qed.

Lemma reachable_w_start : reachable scripted file_pathFromURL w_start.
Proof. exists [granted; denied; prompt], []. reflexivity. Defined.

Lemma identity_of_status_instance_witness :
  exists s1 s2 w1 w2,
    reachable scripted file_pathFromURL w_start
    /\ formDescriptor file_pathFromURL d_tmp_url = Normal d_tmp
    /\ formDescriptor file_pathFromURL d_tmp = Normal d_tmp
    /\ same_capability d_tmp d_tmp
    /\ querySync scripted file_pathFromURL d_tmp_url w_start = (Normal s1, w1)
    /\ revokeSync scripted file_pathFromURL d_tmp
         (run scripted file_pathFromURL [AddEventListener 0 silent] w1)
       = (Normal s2, w2)
    /\ s1 = s2.
Proof.
  exists 0, 0, (querySync scripted file_pathFromURL d_tmp_url w_start).2,
    (revokeSync scripted file_pathFromURL d_tmp
       (run scripted file_pathFromURL [AddEventListener 0 silent]
          (querySync scripted file_pathFromURL d_tmp_url w_start).2)).2.
  assert (formDescriptor file_pathFromURL d_tmp_url = Normal d_tmp) as H2
    by (vm_compute; reflexivity).
  assert (formDescriptor file_pathFromURL d_tmp = Normal d_tmp) as H3
    by (vm_compute; reflexivity).
  assert (same_capability d_tmp d_tmp) as H4.
  { exists "read". split; [vm_compute; reflexivity|].
    split; [vm_compute; reflexivity|]. intros f _. reflexivity. }
  assert (querySync scripted file_pathFromURL d_tmp_url w_start
          = (Normal 0, (querySync scripted file_pathFromURL d_tmp_url w_start).2)) as H5
    by (vm_compute; reflexivity).
  assert (revokeSync scripted file_pathFromURL d_tmp
            (run scripted file_pathFromURL [AddEventListener 0 silent]
               (querySync scripted file_pathFromURL d_tmp_url w_start).2)
          = (Normal 0,
             (revokeSync scripted file_pathFromURL d_tmp
                (run scripted file_pathFromURL [AddEventListener 0 silent]
                   (querySync scripted file_pathFromURL d_tmp_url w_start).2)).2)) as H6
    by (vm_compute; reflexivity).
  repeat (split; [assumption || exact reachable_w_start|]).
  exact (identity_of_status_instance scripted file_pathFromURL Query Revoke
           d_tmp_url d_tmp d_tmp d_tmp [AddEventListener 0 silent] w_start _ _ 0 0
           reachable_w_start H2 H3 H4 H5 H6).
Defined.

(** C2 as stated fails: a net descriptor without a host and one whose host
    is the empty string are both valid and normalised and differ in the
    identifying sub-field, yet derive the one key [net$] and receive the
    one instance. *)
Lemma key_partition_fails_on_empty_host :
  isValidDescriptor d_net = true /\ isValidDescriptor d_net_empty = true
  /\ formDescriptor file_pathFromURL d_net = Normal d_net
  /\ formDescriptor file_pathFromURL d_net_empty = Normal d_net_empty
  /\ get d_net "name" = get d_net_empty "name"
  /\ own d_net "host" = None /\ own d_net_empty "host" = Some (VString "")
  /\ cacheKey d_net = Normal "net$" /\ cacheKey d_net_empty = Normal "net$"
  /\ (querySync scripted file_pathFromURL d_net w_start).1 = Normal 0
  /\ (querySync scripted file_pathFromURL d_net_empty
        (querySync scripted file_pathFromURL d_net w_start).2).1 = Normal 0.
Proof. repeat split; vm_compute; reflexivity. Qed.

Lemma key_partition_witness :
  exists key1 key2 s1 s2 w1 w2,
    isValidDescriptor d_example = true /\ isValidDescriptor d_other = true
    /\ identifier d_example = Normal (Some "example.com")
    /\ identifier d_other = Normal (Some "other.com")
    /\ cacheKey d_example = Normal key1 /\ cacheKey d_other = Normal key2
    /\ key1 <> key2
    /\ querySync scripted file_pathFromURL d_example w_start = (Normal s1, w1)
    /\ requestSync scripted file_pathFromURL d_other
         (run scripted file_pathFromURL [] w1) = (Normal s2, w2)
    /\ s1 <> s2.
Proof.
  assert (isValidDescriptor d_example = true) as V1 by (vm_compute; reflexivity).
  assert (isValidDescriptor d_other = true) as V2 by (vm_compute; reflexivity).
  assert (identifier d_example = Normal (Some "example.com")) as I1
    by (vm_compute; reflexivity).
  assert (identifier d_other = Normal (Some "other.com")) as I2
    by (vm_compute; reflexivity).
  assert (get d_example "name" <> get d_other "name"
          \/ Some "example.com" <> Some "other.com") as D
    by (right; discriminate).
  destruct (key_partition scripted file_pathFromURL d_example d_other _ _
              V1 V2 I1 I2 D) as [(key1 & key2 & K1 & K2 & Kne) Hinst].
  exists key1, key2, 0, 1, (querySync scripted file_pathFromURL d_example w_start).2,
    (requestSync scripted file_pathFromURL d_other
       (run scripted file_pathFromURL []
          (querySync scripted file_pathFromURL d_example w_start).2)).2.
  assert (querySync scripted file_pathFromURL d_example w_start
          = (Normal 0, (querySync scripted file_pathFromURL d_example w_start).2)) as Q1
    by (vm_compute; reflexivity).
  assert (requestSync scripted file_pathFromURL d_other
            (run scripted file_pathFromURL []
               (querySync scripted file_pathFromURL d_example w_start).2)
          = (Normal 1,
             (requestSync scripted file_pathFromURL d_other
                (run scripted file_pathFromURL []
                   (querySync scripted file_pathFromURL d_example w_start).2)).2)) as Q2
    by (vm_compute; reflexivity).
  repeat (split; [assumption|]).
  exact (Hinst Query Request d_example d_other [] w_start _ _ 0 1
           reachable_w_start ltac:(vm_compute; reflexivity)
           ltac:(vm_compute; reflexivity) Q1 Q2).
Defined.

Lemma monotone_notification_witness :
  let w := run scripted file_pathFromURL
             [QuerySync d_tmp_url; AddEventListener 0 silent;
              SetOnchange 0 (Some silent)] w_start in
  reachable scripted file_pathFromURL w
  /\ cacheKey d_tmp = Normal "read-/tmp/a&"
  /\ statusCache w !! "read-/tmp/a&" = Some 0
  /\ cache d_tmp granted w = (Normal 0, w)
  /\ exists w', cache d_tmp denied w = (Normal 0, w')
       /\ PermissionStatus_state 0 w' = denied
       /\ trace w' = [Dispatched 0 (new_Event "change" false);
                      Called 0 Listener denied; Called 0 Handler denied].
Proof.
  intros w.
  assert (reachable scripted file_pathFromURL w) as H1.
  { exists [granted; denied; prompt],
      [QuerySync d_tmp_url; AddEventListener 0 silent; SetOnchange 0 (Some silent)].
    reflexivity. }
  assert (cacheKey d_tmp = Normal "read-/tmp/a&") as H2 by (vm_compute; reflexivity).
  assert (statusCache w !! "read-/tmp/a&" = Some 0) as H3 by (vm_compute; reflexivity).
  destruct (monotone_notification scripted file_pathFromURL d_tmp granted w _ 0 H1 H2 H3)
    as [Hsame _].
  destruct (monotone_notification scripted file_pathFromURL d_tmp denied w _ 0 H1 H2 H3)
    as [_ Hchanged].
  repeat (split; [assumption|]). split.
  - exact (Hsame ltac:(vm_compute; reflexivity)).
  - destruct (Hchanged ltac:(vm_compute; discriminate))
      as (w' & Hc & _ & _ & _ & _ & Hst & Htr).
    exists w'. split; [exact Hc|]. split; [exact Hst|]. rewrite Htr.
    vm_compute. reflexivity.
Defined.

Lemma validation_witness :
  (typeof (obj []) <> "object" \/ obj [] = VNull
   \/ forall k, k ∈ permissionNames -> get (obj []) "name" <> VString k)
  /\ (exists msg,
        querySync scripted file_pathFromURL (obj []) w_start
          = (Throw (TypeError msg), w_start)
        /\ query scripted file_pathFromURL (obj []) w_start
          = (Rejected (TypeError msg), w_start))
  /\ (exists msg,
        querySync scripted file_pathFromURL (obj [("name", VString "bogus")]) w_start
          = (Throw (TypeError msg), w_start)
        /\ query scripted file_pathFromURL (obj [("name", VString "bogus")]) w_start
          = (Rejected (TypeError msg), w_start))
  /\ (exists msg,
        querySync scripted file_pathFromURL VNull w_start
          = (Throw (TypeError msg), w_start)
        /\ query scripted file_pathFromURL VNull w_start
          = (Rejected (TypeError msg), w_start)).
Proof.
  assert (typeof (obj []) <> "object" \/ obj [] = VNull
          \/ forall k, k ∈ permissionNames -> get (obj []) "name" <> VString k) as H1
    by (right; right; intros k _; discriminate).
  split; [exact H1|]. split; [|split].
  - exact (validation scripted file_pathFromURL Query (obj []) w_start H1).
  - apply (validation scripted file_pathFromURL Query
             (obj [("name", VString "bogus")]) w_start).
    right; right. intros k Hk Heq. vm_compute in Heq. injection Heq as <-.
    apply permissionNames_cases in Hk.
    destruct Hk as [?|[?|[?|[?|[?|[?|[?|?]]]]]]]; discriminate.
  - apply (validation scripted file_pathFromURL Query VNull w_start).
    right; left; reflexivity.
Defined.

(** C5 at the failing input. A read descriptor without a path: the facade
    assigns [path] before the key is derived, so the key is suffixed, no
    bare key is cached, and the instance is shared with the descriptor
    whose path is the string [undefined]. *)
Theorem absent_path_key_is_suffixed :
  formDescriptor file_pathFromURL d_read
    = Normal (obj [("name", VString "read"); ("path", VUndefined)])
  /\ cacheKey (obj [("name", VString "read"); ("path", VUndefined)])
     = Normal "read-undefined&"
  /\ (querySync scripted file_pathFromURL d_read w_start).1 = Normal 0
  /\ statusCache (querySync scripted file_pathFromURL d_read w_start).2 !! "read$" = None
  /\ statusCache (querySync scripted file_pathFromURL d_read w_start).2
       !! "read-undefined&" = Some 0
  /\ cacheKey d_read_undefined = Normal "read-undefined&"
  /\ (querySync scripted file_pathFromURL d_read_undefined
        (querySync scripted file_pathFromURL d_read w_start).2).1 = Normal 0.
Proof. repeat split; vm_compute; reflexivity. Qed.

Lemma presence_asymmetry_witness :
  cacheKey (obj [("name", VString "write"); ("path", VString "")]) = Normal "write-&"
  /\ cacheKey (obj [("name", VString "ffi"); ("path", VUndefined)])
     = Normal "ffi-undefined&"
  /\ cacheKey d_net_empty = Normal "net$"
  /\ cacheKey d_net = Normal "net$"
  /\ exists s1 s2 w1 w2,
       cache d_net_empty granted w_start = (Normal s1, w1)
       /\ cache d_net denied (run scripted file_pathFromURL [] w1) = (Normal s2, w2)
       /\ s1 = s2.
Proof.
  destruct (presence_asymmetry scripted file_pathFromURL) as (Hp & Hb & Hs).
  split; [|split; [|split; [|split]]].
  - destruct (Hp (list_to_map [("name", VString "write"); ("path", VString "")])
                "write") as [Hempty _];
      [repeat constructor | vm_compute; reflexivity |].
    apply Hempty. vm_compute. reflexivity.
  - destruct (Hp (list_to_map [("name", VString "ffi"); ("path", VUndefined)])
                "ffi") as [_ Hundef];
      [repeat constructor | vm_compute; reflexivity |].
    apply Hundef. vm_compute. reflexivity.
  - apply (Hb (list_to_map [("name", VString "net"); ("host", VString "")]) "net" "host");
      [repeat constructor | vm_compute; reflexivity | vm_compute; reflexivity
      | left; vm_compute; reflexivity].
  - apply (Hb (list_to_map [("name", VString "net")]) "net" "host");
      [repeat constructor | vm_compute; reflexivity | vm_compute; reflexivity
      | right; vm_compute; reflexivity].
  - exists 0, 0, (cache d_net_empty granted w_start).2,
      (cache d_net denied
         (run scripted file_pathFromURL [] (cache d_net_empty granted w_start).2)).2.
    assert (cache d_net_empty granted w_start
            = (Normal 0, (cache d_net_empty granted w_start).2)) as Q1
      by (vm_compute; reflexivity).
    assert (cache d_net denied
              (run scripted file_pathFromURL [] (cache d_net_empty granted w_start).2)
            = (Normal 0,
               (cache d_net denied
                  (run scripted file_pathFromURL []
                     (cache d_net_empty granted w_start).2)).2)) as Q2
      by (vm_compute; reflexivity).
    split; [exact Q1|]. split; [exact Q2|].
    eapply (Hs (list_to_map [("name", VString "net"); ("host", VString "")])
               (list_to_map [("name", VString "net")]) "net" "host" granted denied
               [] w_start);
      [repeat constructor | vm_compute; reflexivity | vm_compute; reflexivity
      | vm_compute; reflexivity | vm_compute; reflexivity | vm_compute; reflexivity
      | exact reachable_w_start | exact Q1 | exact Q2].
Defined.

(** C7 as stated fails: on an instance with a registered listener that
    prevents the event and an onchange handler set, dispatching a cancelable
    event runs the listener only; the handler is never called, and it is
    the listener that marked the event prevented. *)
Lemma dispatch_skips_handler_once_prevented :
  let w := run scripted file_pathFromURL
             [QuerySync d_tmp_url; AddEventListener 0 preventing;
              SetOnchange 0 (Some silent)] w_start in
  let r := PermissionStatus_dispatchEvent 0 (new_Event "change" true) w in
  listeners (instances w !!! 0) = [preventing]
  /\ onchange (instances w !!! 0) = Some silent
  /\ r.1 = Normal (false, {| event_type := "change"; cancelable := true;
                             defaultPrevented := true |})
  /\ trace r.2 = [Dispatched 0 (new_Event "change" true); Called 0 Listener granted].
Proof. repeat split; vm_compute; reflexivity. Qed.

Lemma serializePermissions_spec_witness :
  let p := obj [("read", VArray [VURL "file:///tmp/a"; VString "b"]);
                ("net", VArray [VString "example.com"]);
                ("env", VBoolean true)] in
  typeof p = "object" /\ p <> VNull
  /\ (exists r, serializePermissions file_pathFromURL p = Normal r
        /\ get r "read" = VArray [VString "/tmp/a"; VString "b"]
        /\ get r "write" = VUndefined
        /\ get r "net" = VArray [VString "example.com"]
        /\ get r "env" = VBoolean true)
  /\ serializePermissions file_pathFromURL (VString "all") = Normal (VString "all").
Proof.
  intros p.
  assert (typeof p = "object") as Ht by reflexivity.
  assert (p <> VNull) as Hn by discriminate.
  destruct (serializePermissions_spec file_pathFromURL p) as [_ Hobj].
  destruct (Hobj Ht Hn) as [Hres Htot].
  split; [exact Ht|]. split; [exact Hn|]. split.
  - destruct Htot as (r & Hr).
    { intros key l x Hk Hl Hx. rewrite !elem_of_cons, elem_of_nil in Hk.
      destruct Hk as [->|[->|[->|[->|[]]]]]; vm_compute in Hl;
        try discriminate.
      injection Hl as <-. rewrite !elem_of_cons, elem_of_nil in Hx.
      destruct Hx as [->|[->|[]]]; eexists; vm_compute; reflexivity. }
    exists r. split; [exact Hr|].
    destruct (Hres r Hr) as [Hfs Hrest].
    destruct (Hfs "read" ltac:(repeat constructor)) as [Harr _].
    destruct (Harr _ eq_refl) as (l' & Hl' & Hconv).
    destruct (Hfs "write" ltac:(repeat constructor)) as [_ Hcarry].
    split; [|split; [exact (Hcarry eq_refl)|split]].
    + rewrite Hl'. f_equal.
      apply Forall2_cons_inv_l in Hconv as (y1 & k1 & Hy1 & Hconv & ->).
      apply Forall2_cons_inv_l in Hconv as (y2 & k2 & Hy2 & Hconv & ->).
      apply Forall2_nil_inv_l in Hconv as ->.
      vm_compute in Hy1, Hy2. congruence.
    + exact (Hrest "net" ltac:(repeat constructor)).
    + exact (Hrest "env" ltac:(repeat constructor)).
  - destruct (serializePermissions_spec file_pathFromURL (VString "all")) as [Hid _].
    apply Hid. left. discriminate.
Defined.


(** * Further properties of the module *)

Section Further.

Context {Engine : Type}.
Context (ops : core_ops Engine).
Context (pathFromURL : value -> completion value).

Local Abbreviation World := (world Engine).

(** ** Records and instances come in cached pairs *)

Lemma aligned_frame (w w' : World) :
  statusCache w' = statusCache w -> records w' = records w ->
  instances w' = instances w -> aligned w -> aligned w'.
Proof.
  intros Hc Hr Hi [H1 H2 H3 H4 H5 H6].
  split; rewrite ?Hc, ?Hr, ?Hi; assumption.
Qed.

Lemma aligned_init (e : Engine) : aligned (init e).
Proof.
  split; simpl; intros; try done; try lia.
Qed.

Lemma cache_aligned (desc : value) (st : PermissionState) (w : World) :
  aligned w -> aligned (cache desc st w).2.
Proof.
  intros Hal.
  destruct (cacheKey desc) as [key|e] eqn:Hk;
    [|by rewrite (cache_throws _ _ _ _ Hk)].
  destruct (statusCache w !! key) as [r|] eqn:Hc.
  - destruct (decide (state (records w !!! r) = st)) as [Hs|Hs].
    { by rewrite (cache_hit_same _ _ _ _ _ Hk Hc Hs). }
    rewrite (cache_hit_changed _ _ _ _ _ Hk Hc Hs). simpl.
    destruct Hal as [H1 H2 H3 H4 H5 H6].
    split; simpl; rewrite ?length_insert; try assumption.
    intros i rec. rewrite list_lookup_insert. case_decide as Hi; [|by apply H3].
    destruct Hi as [<- Hlt]. intros [= <-]. simpl.
    apply H3. apply list_lookup_lookup_total_lt. exact Hlt.
  - rewrite (cache_miss _ _ _ _ Hk Hc). simpl.
    destruct Hal as [H1 H2 H3 H4 H5 H6].
    split; simpl; rewrite ?length_app; simpl.
    + lia.
    + rewrite map_size_insert_None by done. lia.
    + intros i rec Hi. apply lookup_app_Some in Hi as [Hi|[Hge Hi]]; [by apply H3|].
      apply list_lookup_singleton_Some in Hi as [Hz <-]. simpl. lia.
    + intros i self Hi. apply lookup_app_Some in Hi as [Hi|[Hge Hi]]; [by apply H4|].
      apply list_lookup_singleton_Some in Hi as [Hz <-]. simpl. lia.
    + intros key' r. rewrite lookup_insert. case_decide.
      * intros [= <-]. lia.
      * intros Hc'. apply H5 in Hc'. lia.
    + intros i Hi. destruct (decide (i = length (records w))) as [->|Hne].
      * exists key. by rewrite lookup_insert_eq.
      * destruct (H6 i) as (key' & Hkey'); [lia|]. exists key'.
        rewrite lookup_insert_ne; [done|]. congruence.
Qed.

Lemma immediate_form_aligned (o : facade_op) (desc : value) (w : World) :
  aligned w -> aligned (immediate_form ops pathFromURL o desc w).2.
Proof.
  intros Hal. rewrite immediate_form_unfold.
  destruct (isValidDescriptor desc); simpl; [|done].
  unfold bind at 1, lift.
  destruct (formDescriptor pathFromURL desc) as [n|?]; [|done].
  unfold bind. destruct (engine_call_frame ops o n w) as (c & e & ->).
  destruct c as [st|?]; [|by apply (aligned_frame w)].
  apply cache_aligned. by apply (aligned_frame w).
Qed.

Lemma perform_aligned (a : action) (w : World) :
  aligned w -> aligned (perform ops pathFromURL a w).
Proof.
  intros Hal. destruct a as [d|d|d|t h|t cb|t e]; simpl.
  - by apply (immediate_form_aligned Query).
  - by apply (immediate_form_aligned Revoke).
  - by apply (immediate_form_aligned Request).
  - destruct Hal as [H1 H2 H3 H4 H5 H6].
    split; simpl; rewrite ?length_alter; try assumption.
    intros i self. rewrite list_lookup_alter. case_decide as Hi; [|by apply H4].
    subst i. destruct (instances w !! t) as [o|] eqn:Ho; [|discriminate].
    intros [= <-]. simpl. by apply H4.
  - destruct Hal as [H1 H2 H3 H4 H5 H6].
    split; simpl; rewrite ?length_alter; try assumption.
    intros i self. rewrite list_lookup_alter. case_decide as Hi; [|by apply H4].
    subst i. destruct (instances w !! t) as [o|] eqn:Ho; [|discriminate].
    intros [= <-]. simpl. by apply H4.
  - rewrite dispatchEvent_unfold.
    repeat match goal with |- context [match ?x with _ => _ end] => destruct x end;
      by apply (aligned_frame w).
Qed.

Lemma reachable_aligned (w : World) : reachable ops pathFromURL w -> aligned w.
Proof.
  intros (e & acts & ->). generalize (aligned_init e). generalize (init e).
  induction acts as [|a acts IH]; intros w Hw; simpl; [done|].
  apply IH. by apply perform_aligned.
Qed.

(** ** One call of [cache], by cases *)

Lemma cache_cases (desc : value) (st : PermissionState) (w : World) :
  (exists e, cacheKey desc = Throw e /\ cache desc st w = (Throw e, w))
  \/ (exists key r, cacheKey desc = Normal key /\ statusCache w !! key = Some r
        /\ state (records w !!! r) = st
        /\ cache desc st w = (Normal (status (records w !!! r)), w))
  \/ (exists key r, cacheKey desc = Normal key /\ statusCache w !! key = Some r
        /\ state (records w !!! r) <> st
        /\ cache desc st w
           = (Normal (status (records w !!! r)),
              log (Dispatched (status (records w !!! r)) (new_Event "change" false)
                   :: change_calls (status (records w !!! r))
                        (PermissionStatus_state (status (records w !!! r))
                           (with_records
                              (<[r := {| state := st;
                                         status := status (records w !!! r) |}]>) w))
                        (instances w !!! status (records w !!! r)))
                (with_records
                   (<[r := {| state := st; status := status (records w !!! r) |}]>) w)))
  \/ (exists key, cacheKey desc = Normal key /\ statusCache w !! key = None
        /\ cache desc st w
           = (Normal (length (instances w)),
              Build_world (<[key := length (records w)]> (statusCache w))
                (records w ++ [{| state := st; status := length (instances w) |}])
                (instances w ++ [{| priv_state := length (records w); onchange := None;
                                    listeners := [] |}])
                (engine w) (trace w))).
Proof.
  destruct (cacheKey desc) as [key|e] eqn:Hk.
  - destruct (statusCache w !! key) as [r|] eqn:Hc.
    + destruct (decide (state (records w !!! r) = st)) as [Hs|Hs].
      * right; left. exists key, r. by rewrite (cache_hit_same _ _ _ _ _ Hk Hc Hs).
      * right; right; left. exists key, r.
        by rewrite (cache_hit_changed _ _ _ _ _ Hk Hc Hs).
    + right; right; right. exists key. by rewrite (cache_miss _ _ _ _ Hk Hc).
  - left. exists e. by rewrite (cache_throws _ _ _ _ Hk).
Qed.

Lemma change_calls_target (s : nat) seen (self : PermissionStatus) :
  Forall (fun o => target_of o = s) (change_calls s seen self).
Proof.
  unfold change_calls. apply Forall_app. split.
  - apply Forall_forall. intros o Ho. apply list_elem_of_fmap in Ho as (? & -> & _).
    reflexivity.
  - destruct (onchange self); repeat constructor.
Qed.

(** The state read off the instance [cache] returns is the state passed. *)
Lemma cache_state (desc : value) (st : PermissionState) (w w' : World) s :
  wf_world w -> cache desc st w = (Normal s, w') -> PermissionStatus_state s w' = st.
Proof.
  intros [Hcached _] H.
  destruct (cache_cases desc st w)
    as [(e & _ & E)|[(key & r & _ & Hc & Hs & E)|[(key & r & _ & Hc & Hs & E)
       |(key & _ & _ & E)]]]; rewrite E in H; simplify_eq.
  - destruct (Hcached key r Hc) as (rec & self & Hr & Hi & Hp).
    apply list_lookup_total_correct in Hr. subst rec.
    unfold PermissionStatus_state. by rewrite (list_lookup_total_correct _ _ _ Hi), Hp.
  - destruct (Hcached key r Hc) as (rec & self & Hr & Hi & Hp).
    pose proof (lookup_lt_Some _ _ _ Hr) as Hlt.
    apply list_lookup_total_correct in Hr. subst rec.
    unfold PermissionStatus_state. simpl.
    rewrite (list_lookup_total_correct _ _ _ Hi), Hp.
    by rewrite list_lookup_total_insert_eq.
  - unfold PermissionStatus_state. simpl.
    rewrite (list_lookup_total_middle (instances w) [] _ (length (instances w)) eq_refl).
    simpl.
    by rewrite (list_lookup_total_middle (records w) [] _ (length (records w)) eq_refl).
Qed.

(** What [cache] leaves alone and how far it grows the cache. *)
Lemma cache_growth (desc : value) (st : PermissionState) (w : World) :
  let w' := (cache desc st w).2 in
  engine w' = engine w
  /\ statusCache w ⊆ statusCache w'
  /\ size (statusCache w') <= S (size (statusCache w))
  /\ instances w `prefix_of` instances w'
  /\ length (instances w') <= S (length (instances w)).
Proof.
  destruct (cache_cases desc st w)
    as [(e & _ & E)|[(key & r & _ & Hc & Hs & E)|[(key & r & _ & Hc & Hs & E)
       |(key & _ & Hc & E)]]]; rewrite E; simpl;
    (split; [reflexivity|]); try (repeat split; (done || lia)).
  split; [by apply insert_subseteq|].
  split; [rewrite map_size_insert_None by done; lia|].
  split; [by apply prefix_app_r|]. rewrite length_app. simpl. lia.
Qed.

(** The events of one call of [cache]: none, or one dispatch on the
    instance returned, and then only when a cached state changed. *)
Lemma cache_trace (desc : value) (st : PermissionState) (w : World) :
  exists obs, trace (cache desc st w).2 = trace w ++ obs
    /\ (forall s, (cache desc st w).1 = Normal s ->
          Forall (fun o => target_of o = s) obs)
    /\ (obs <> [] ->
          exists key r, cacheKey desc = Normal key /\ statusCache w !! key = Some r
            /\ state (records w !!! r) <> st).
Proof.
  destruct (cache_cases desc st w)
    as [(e & _ & E)|[(key & r & _ & Hc & Hs & E)|[(key & r & Hk & Hc & Hs & E)
       |(key & _ & Hc & E)]]]; rewrite E; simpl;
    try (exists []; rewrite app_nil_r; split; [done|]; split; [by constructor|done]).
  eexists. split; [reflexivity|]. split.
  - intros s [= <-]. constructor; [reflexivity|]. apply change_calls_target.
  - intros _. by exists key, r.
Qed.


(** ** The immediate forms, step by step *)

Lemma engine_call_op_of (o : facade_op) (desc : value) (w : World) :
  engine_call ops o desc w
  = ((op_of ops o desc (engine w)).1, with_engine (op_of ops o desc (engine w)).2 w).
Proof.
  destruct o; unfold engine_call, op_of, opQuery, opRevoke, opRequest, call_op;
    match goal with |- context [?f ops desc (engine w)] =>
      destruct (f ops desc (engine w)) as [c e] end; reflexivity.
Qed.

Lemma immediate_form_valid (o : facade_op) (desc n : value) (w : World) :
  isValidDescriptor desc = true -> formDescriptor pathFromURL desc = Normal n ->
  immediate_form ops pathFromURL o desc w
  = match (op_of ops o n (engine w)).1 with
    | Normal st => cache n st (with_engine (op_of ops o n (engine w)).2 w)
    | Throw err => (Throw err, with_engine (op_of ops o n (engine w)).2 w)
    end.
Proof.
  intros Hv Hf. rewrite immediate_form_unfold, Hv. simpl.
  unfold bind at 1, lift. rewrite Hf. unfold bind. rewrite engine_call_op_of.
  by destruct (op_of ops o n (engine w)).1.
Qed.

Lemma immediate_form_invalid (o : facade_op) (desc : value) (w : World) :
  isValidDescriptor desc = false ->
  immediate_form ops pathFromURL o desc w = (Throw (invalidDescriptor desc), w).
Proof. intros Hv. by rewrite immediate_form_unfold, Hv. Qed.

Lemma immediate_form_unnormalised (o : facade_op) (desc : value) (w : World) e :
  isValidDescriptor desc = true -> formDescriptor pathFromURL desc = Throw e ->
  immediate_form ops pathFromURL o desc w = (Throw e, w).
Proof.
  intros Hv Hf. rewrite immediate_form_unfold, Hv. simpl.
  unfold bind, lift. by rewrite Hf.
Qed.

(** X1. The instance a facade call returns reports the state the engine
    answered: the call ran the op once, on the normalised descriptor, and
    the state read off the returned instance is that answer. *)
Theorem facade_reports_engine_answer (o : facade_op) (desc : value)
    (w w' : World) (s : nat) :
  reachable ops pathFromURL w ->
  immediate_form ops pathFromURL o desc w = (Normal s, w') ->
  exists n st, formDescriptor pathFromURL desc = Normal n
    /\ op_of ops o n (engine w) = (Normal st, engine w')
    /\ PermissionStatus_state s w' = st.
Proof.
  intros Hw H. apply reachable_wf in Hw.
  destruct (isValidDescriptor desc) eqn:Hv;
    [|rewrite (immediate_form_invalid o desc w Hv) in H; discriminate].
  destruct (formDescriptor pathFromURL desc) as [n|e] eqn:Hf;
    [|rewrite (immediate_form_unnormalised o desc w e Hv Hf) in H; discriminate].
  rewrite (immediate_form_valid o desc n w Hv Hf) in H.
  destruct (op_of ops o n (engine w)) as [[st|err] e'] eqn:Hop; simpl in H;
    [|discriminate].
  exists n, st. split; [done|].
  pose proof (cache_growth n st (with_engine e' w)) as (He & _).
  rewrite H in He. simpl in He. split; [by rewrite He|].
  eapply cache_state; [|exact H]. by apply (wf_frame w).
Qed.



(** X4. The facade never evicts and never re-points: every cached key
    keeps its record, at most one key and one instance are added per call,
    and the instances that exist keep their handler and listeners. *)
Theorem facade_never_evicts (o : facade_op) (desc : value) (w : World) :
  statusCache w ⊆ statusCache (immediate_form ops pathFromURL o desc w).2
  /\ size (statusCache (immediate_form ops pathFromURL o desc w).2)
     <= S (size (statusCache w))
  /\ instances w `prefix_of` instances (immediate_form ops pathFromURL o desc w).2
  /\ length (instances (immediate_form ops pathFromURL o desc w).2)
     <= S (length (instances w)).
Proof.
  destruct (isValidDescriptor desc) eqn:Hv;
    [|rewrite (immediate_form_invalid o desc w Hv); simpl; repeat split; (done || lia)].
  destruct (formDescriptor pathFromURL desc) as [n|e] eqn:Hf;
    [|rewrite (immediate_form_unnormalised o desc w e Hv Hf); simpl;
      repeat split; (done || lia)].
  rewrite (immediate_form_valid o desc n w Hv Hf).
  destruct ((op_of ops o n (engine w)).1) as [st|e] eqn:Hop;
    [|simpl; repeat split; (done || lia)].
  pose proof (cache_growth n st (with_engine (op_of ops o n (engine w)).2 w))
    as (_ & H1 & H2 & H3 & H4). simpl in *. done.
Qed.

(** X5. In every reachable state there are as many instances as records
    and as cached keys; every instance is cached under exactly one key, and
    the state it reports is that of the record with its own index. *)
Theorem one_instance_per_key (w : World) :
  reachable ops pathFromURL w ->
  length (instances w) = size (statusCache w)
  /\ length (records w) = size (statusCache w)
  /\ forall s, s < length (instances w) ->
       PermissionStatus_state s w = state (records w !!! s)
       /\ exists key, statusCache w !! key = Some s
            /\ forall key', statusCache w !! key' = Some s -> key' = key.
Proof.
  intros Hw. pose proof (reachable_wf _ _ _ Hw) as [_ Hinj].
  apply reachable_aligned in Hw as [H1 H2 H3 H4 H5 H6].
  split; [lia|]. split; [lia|]. intros s Hs. split.
  - unfold PermissionStatus_state. f_equal. f_equal.
    apply H4. by apply list_lookup_lookup_total_lt.
  - destruct (H6 s) as (key & Hkey); [lia|]. exists key. split; [done|].
    intros key' Hkey'. by apply (Hinj key' key s).
Qed.


(** X7. A reference obtained earlier is live: after a later facade call
    for the same capability returns, the earlier instance reports the state
    the engine answered to the later call. *)
Theorem earlier_reference_observes_later_answer (o1 o2 : facade_op)
    (d1 d2 n1 n2 : value) (acts : list action) (w w1 w2 : World) (s1 s2 : nat) :
  reachable ops pathFromURL w ->
  formDescriptor pathFromURL d1 = Normal n1 ->
  formDescriptor pathFromURL d2 = Normal n2 ->
  same_capability n1 n2 ->
  immediate_form ops pathFromURL o1 d1 w = (Normal s1, w1) ->
  immediate_form ops pathFromURL o2 d2 (run ops pathFromURL acts w1) = (Normal s2, w2) ->
  exists st2,
    (op_of ops o2 n2 (engine (run ops pathFromURL acts w1))).1 = Normal st2
    /\ PermissionStatus_state s1 w2 = st2.
Proof.
  intros Hw Hn1 Hn2 Hsame H1 H2. apply reachable_wf in Hw.
  pose proof (immediate_form_persists ops pathFromURL o1 d1 w) as Hp1.
  rewrite H1 in Hp1. simpl in Hp1.
  assert (wf_world (run ops pathFromURL acts w1)) as Hwf2.
  { apply run_persists. by apply Hp1. }
  pose proof H1 as H1'. pose proof H2 as H2'.
  apply immediate_form_returns in H1' as (n1' & st1 & e1 & _ & Hn1' & C1).
  assert (n1' = n1) as -> by congruence.
  destruct (isValidDescriptor d2) eqn:Hv2;
    [|rewrite (immediate_form_invalid o2 d2 _ Hv2) in H2; discriminate].
  rewrite (immediate_form_valid o2 d2 n2 _ Hv2 Hn2) in H2.
  destruct ((op_of ops o2 n2 (engine (run ops pathFromURL acts w1))).1)
    as [st2|] eqn:Hop; [|discriminate].
  exists st2. split; [reflexivity|].
  assert (wf_world (with_engine e1 w)) as Hwf by (by apply (wf_frame w)).
  destruct (cache_result _ _ _ _ _ Hwf C1) as (key & _ & _ & Hk & _).
  assert (s1 = s2) as ->.
  { eapply (same_key_same_instance n1 n2 key); try eassumption.
    - by rewrite <- (cacheKey_same_capability n1 n2).
    - eapply persists_trans; [apply run_persists|]. by apply persists_frame. }
  eapply cache_state; [|exact H2]. by apply (wf_frame (run ops pathFromURL acts w1)).
Qed.

(** ** Normalisation *)

Lemma formDescriptor_cases (desc : value) :
  (formDescriptor pathFromURL desc = Normal desc
   /\ forall k, k ∈ ["read"; "write"; "ffi"; "run"] -> get desc "name" <> VString k)
  \/ (exists props k, desc = VObject props /\ props !! "name" = Some (VString k)
        /\ k ∈ ["read"; "write"; "ffi"]
        /\ formDescriptor pathFromURL desc
           = let! p := pathFromURL (get desc "path") in
             Normal (VObject (<["path" := p]> props)))
  \/ (exists props, desc = VObject props /\ props !! "name" = Some (VString "run")
        /\ formDescriptor pathFromURL desc
           = let! c := pathFromURL (get desc "command") in
             Normal (VObject (<["command" := c]> props))).
Proof.
  assert (forall k, k ∈ ["read"; "write"; "ffi"; "run"] ->
            k = "read" \/ k = "write" \/ k = "ffi" \/ k = "run") as Hfour.
  { intros k. rewrite !elem_of_cons, elem_of_nil. tauto. }
  destruct desc as [| | | | | | | |props];
    try (left; split; [reflexivity|]; intros k _; discriminate).
  unfold formDescriptor, get.
  destruct (props !! "name") as [[| | | |k| | | |]|] eqn:Hn; simpl;
    try (left; split; [reflexivity|]; intros k' _; discriminate).
  destruct (String.eqb_spec k "read") as [->|N1].
  { right; left. exists props, "read". repeat split; try done. repeat constructor. }
  destruct (String.eqb_spec k "write") as [->|N2].
  { right; left. exists props, "write". repeat split; try done. repeat constructor. }
  destruct (String.eqb_spec k "ffi") as [->|N3].
  { right; left. exists props, "ffi". repeat split; try done. repeat constructor. }
  destruct (String.eqb_spec k "run") as [->|N4].
  { right; right. exists props. done. }
  left. split; [reflexivity|]. intros k' Hk' [= <-].
  apply Hfour in Hk'. tauto.
Qed.


(** X9. When pathFromURL returns its own results unchanged, normalising a
    normalised descriptor changes nothing: a descriptor object passed to
    the facade a second time is read as it was left. *)
Theorem formDescriptor_idempotent (desc n : value) :
  (forall x y, pathFromURL x = Normal y -> pathFromURL y = Normal y) ->
  formDescriptor pathFromURL desc = Normal n ->
  formDescriptor pathFromURL n = Normal n.
Proof.
  intros Hid H.
  destruct (formDescriptor_cases desc)
    as [[E _]|[(props & k & -> & Hn & Hk & E)|(props & -> & Hn & E)]];
    rewrite E in H.
  - injection H as <-. exact E.
  - destruct (pathFromURL (get (VObject props) "path")) as [p|] eqn:Hp;
      [|discriminate]. injection H as <-.
    destruct (formDescriptor_cases (VObject (<["path" := p]> props)))
      as [[_ E']|[(props' & k' & [= <-] & Hn' & Hk' & E')|(props' & [= <-] & Hn' & E')]].
    + exfalso. apply (E' k).
      * revert Hk. rewrite !elem_of_cons, !elem_of_nil. tauto.
      * simpl. by rewrite lookup_insert_ne, Hn.
    + rewrite E'. simpl. rewrite lookup_insert_eq. simpl.
      rewrite (Hid _ _ Hp). simpl. by rewrite insert_insert_eq.
    + rewrite lookup_insert_ne in Hn' by done. exfalso.
      assert (k = "run") as -> by congruence.
      revert Hk. rewrite !elem_of_cons, !elem_of_nil. intuition discriminate.
  - destruct (pathFromURL (get (VObject props) "command")) as [c|] eqn:Hc;
      [|discriminate]. injection H as <-.
    destruct (formDescriptor_cases (VObject (<["command" := c]> props)))
      as [[_ E']|[(props' & k' & [= <-] & Hn' & Hk' & E')|(props' & [= <-] & Hn' & E')]].
    + exfalso. apply (E' "run"); [repeat constructor|].
      simpl. by rewrite lookup_insert_ne, Hn.
    + rewrite lookup_insert_ne in Hn' by done. exfalso.
      assert (k' = "run") as -> by congruence.
      revert Hk'. rewrite !elem_of_cons, !elem_of_nil. intuition discriminate.
    + rewrite E'. simpl. rewrite lookup_insert_eq. simpl.
      rewrite (Hid _ _ Hc). simpl. by rewrite insert_insert_eq.
Qed.



(** ** Validation and key derivation *)

(** X11. Validity is decided by the name alone: a value is a valid
    descriptor exactly when it has an own name that is one of the eight
    kind strings, and no other property changes that. *)
Theorem validity_is_by_name_alone (desc : value) :
  (isValidDescriptor desc = true
   <-> exists k, k ∈ permissionNames /\ own desc "name" = Some (VString k))
  /\ (forall f x, f <> "name" ->
        isValidDescriptor (set desc f x) = isValidDescriptor desc).
Proof.
  split.
  - split.
    + intros Hv. apply isValidDescriptor_inv in Hv as (props & k & -> & Hn & Hk).
      by exists k.
    + intros (k & Hk & Hn). destruct desc; try discriminate. simpl in Hn.
      assert (get (VObject props) "name" = VString k) as Hg
        by (simpl; by rewrite Hn).
      unfold isValidDescriptor. rewrite Hg.
      rewrite (proj2 (includes_permissionNames (VString k))) by (by exists k).
      reflexivity.
  - intros f x Hne. destruct desc; try reflexivity.
    unfold isValidDescriptor. simpl. by rewrite lookup_insert_ne.
Qed.

(** X12. The key ignores every property but the name and the identifying
    sub-field of the kind: setting any other property leaves it as it is. *)
Theorem cacheKey_ignores_other_properties (desc : value) (k f : string) (x : value) :
  get desc "name" = VString k -> f <> "name" -> identifying_field k <> Some f ->
  cacheKey (set desc f x) = cacheKey desc.
Proof.
  intros Hn Hname Hf. apply cacheKey_same_capability.
  destruct desc; try discriminate. exists k. simpl in *.
  rewrite lookup_insert_ne by done. split; [done|]. split; [done|].
  intros f' Hf'. rewrite lookup_insert_ne; [done|]. congruence.
Qed.

(** X13. The message of the invalid-descriptor error: a value without an
    own name is reported as the name undefined, a string name outside the
    eight kinds is quoted as it is, and a symbol name makes the message
    itself fail, with the TypeError of the string conversion. In each case
    the process is left as it was. *)
Theorem invalid_descriptor_message (o : facade_op) (desc : value) (w : World) :
  (own desc "name" = None ->
   immediate_form ops pathFromURL o desc w
   = (Throw (TypeError (not_a_valid_name "undefined")), w))
  /\ (forall s, own desc "name" = Some (VString s) -> s ∉ permissionNames ->
       immediate_form ops pathFromURL o desc w
       = (Throw (TypeError (not_a_valid_name s)), w))
  /\ (forall i, own desc "name" = Some (VSymbol i) ->
       immediate_form ops pathFromURL o desc w
       = (Throw (TypeError "Cannot convert a Symbol value to a string"), w)).
Proof.
  assert (forall v, own desc "name" = v ->
            (forall k, k ∈ permissionNames -> v <> Some (VString k)) ->
            isValidDescriptor desc = false) as Hinv.
  { intros v Hn Hk. apply not_true_is_false. intros Hv.
    apply isValidDescriptor_inv in Hv as (props & k & -> & Hn' & Hk').
    apply (Hk k Hk'). simpl in Hn. congruence. }
  split; [|split].
  - intros Hn. rewrite immediate_form_invalid by (by apply (Hinv None)).
    unfold invalidDescriptor.
    assert (get desc "name" = VUndefined) as ->; [|reflexivity].
    destruct desc; try reflexivity. simpl in *. by rewrite Hn.
  - intros s Hn Hs. rewrite immediate_form_invalid.
    + unfold invalidDescriptor.
      assert (get desc "name" = VString s) as ->; [|reflexivity].
      destruct desc; try discriminate. simpl in *. by rewrite Hn.
    + apply (Hinv _ Hn). intros k Hk [= ->]. by apply Hs.
  - intros i Hn. rewrite immediate_form_invalid by (by apply (Hinv _ Hn)).
    unfold invalidDescriptor.
    assert (get desc "name" = VSymbol i) as ->; [|reflexivity].
    destruct desc; try discriminate. simpl in *. by rewrite Hn.
Qed.

End Further.


(** ** The allow-list formatter *)

Section Serialisation.

Context (pathFromURL : value -> completion value).

Lemma ArrayPrototypeMap_throws (f : value -> completion value) (l : list value) e :
  ArrayPrototypeMap l f = Throw e -> exists x, x ∈ l /\ f x = Throw e.
Proof.
  induction l as [|x l IH]; simpl; [discriminate|].
  destruct (f x) as [y|e'] eqn:Hx; simpl.
  - destruct (ArrayPrototypeMap l f) as [ys|e'] eqn:Hl; simpl; [discriminate|].
    intros [= ->]. destruct IH as (x' & Hin & Hx'); [done|].
    exists x'. split; [by right|done].
  - intros [= ->]. exists x. split; [by left|done].
Qed.

Lemma convert_paths_throws (v : value) e :
  convert_paths pathFromURL v = Throw e ->
  exists l x, v = VArray l /\ x ∈ l /\ pathFromURL x = Throw e.
Proof.
  destruct v; try discriminate. simpl.
  destruct (ArrayPrototypeMap elems pathFromURL) as [|e'] eqn:Hl; [discriminate|].
  intros [= ->]. apply ArrayPrototypeMap_throws in Hl as (x & Hin & Hx).
  by exists elems, x.
Qed.

Lemma convert_paths_fails (l : list value) (x : value) e :
  x ∈ l -> pathFromURL x = Throw e ->
  exists e', convert_paths pathFromURL (VArray l) = Throw e'.
Proof.
  intros Hin Hx. simpl.
  destruct (ArrayPrototypeMap l pathFromURL) as [l'|e'] eqn:Hl; [|by eauto].
  exfalso. apply ArrayPrototypeMap_Forall2 in Hl.
  apply list_elem_of_lookup in Hin as (i & Hi).
  destruct (Forall2_lookup_l _ _ _ _ _ Hl Hi) as (y & _ & Hy). congruence.
Qed.

Lemma convert_paths_fixed (v a : value) :
  (forall x y, pathFromURL x = Normal y -> pathFromURL y = Normal y) ->
  convert_paths pathFromURL v = Normal a -> convert_paths pathFromURL a = Normal a.
Proof.
  intros Hid H. destruct (convert_paths_spec pathFromURL v a H) as [Harr Hoth].
  destruct v; try (rewrite (Hoth eq_refl); reflexivity).
  destruct (Harr _ eq_refl) as (l' & -> & Hl). simpl.
  assert (ArrayPrototypeMap l' pathFromURL = Normal l') as ->; [|reflexivity].
  apply ArrayPrototypeMap_Forall2. clear H Harr Hoth.
  induction Hl as [|x y l l' Hx Hl IH]; constructor; [by eapply Hid|exact IH].
Qed.

(** X15. The result of serializePermissions on a non-null object is an
    object that has exactly the eight kind properties: kinds missing from
    the input are present (as undefined) and any other property of the
    input is dropped. *)
Theorem serializePermissions_has_the_eight_keys (p r : value) :
  typeof p = "object" -> p <> VNull ->
  serializePermissions pathFromURL p = Normal r ->
  exists props, r = VObject props
    /\ forall key, is_Some (props !! key) <-> key ∈ permissionNames.
Proof.
  intros Ht Hn. rewrite (serializePermissions_object pathFromURL p Ht Hn).
  destruct (convert_paths pathFromURL (get p "read")) as [a|]; [|discriminate].
  destruct (convert_paths pathFromURL (get p "write")) as [b|]; [|discriminate].
  destruct (convert_paths pathFromURL (get p "run")) as [c|]; [|discriminate].
  destruct (convert_paths pathFromURL (get p "ffi")) as [d|]; [|discriminate].
  intros [= <-]. eexists. split; [reflexivity|]. intros key.
  cbn [list_to_map foldr fst snd uncurry curry Datatypes.uncurry].
  rewrite !lookup_insert_is_Some', lookup_empty.
  unfold permissionNames. rewrite !elem_of_cons, elem_of_nil.
  pose proof (@is_Some_None value) as Hnone. intuition congruence.
Qed.

(** X16. When pathFromURL returns its own results unchanged, formatting a
    formatted configuration changes nothing. *)
Theorem serializePermissions_idempotent (p r : value) :
  (forall x y, pathFromURL x = Normal y -> pathFromURL y = Normal y) ->
  serializePermissions pathFromURL p = Normal r ->
  serializePermissions pathFromURL r = Normal r.
Proof.
  intros Hid H.
  destruct (String.eqb_spec (typeof p) "object") as [Ht|Ht].
  2:{ assert (r = p) as ->; [|done]. unfold serializePermissions in H.
      destruct (String.eqb_spec (typeof p) "object"); [done|]. simpl in H. congruence. }
  assert (p = VNull \/ p <> VNull) as [->|Hn]
    by (destruct p; (by left) || (right; discriminate)).
  { assert (r = VNull) as ->
      by (unfold serializePermissions in H; simpl in H; congruence).
    reflexivity. }
  rewrite (serializePermissions_object pathFromURL p Ht Hn) in H.
  destruct (convert_paths pathFromURL (get p "read")) as [a|] eqn:Ha; [|discriminate].
  destruct (convert_paths pathFromURL (get p "write")) as [b|] eqn:Hb; [|discriminate].
  destruct (convert_paths pathFromURL (get p "run")) as [c|] eqn:Hc; [|discriminate].
  destruct (convert_paths pathFromURL (get p "ffi")) as [d|] eqn:Hd; [|discriminate].
  injection H as <-.
  rewrite serializePermissions_object by done.
  change (get (obj _) "read") with a. change (get (obj _) "write") with b.
  change (get (obj _) "run") with c. change (get (obj _) "ffi") with d.
  rewrite (convert_paths_fixed _ a Hid Ha), (convert_paths_fixed _ b Hid Hb),
    (convert_paths_fixed _ c Hid Hc), (convert_paths_fixed _ d Hid Hd).
  reflexivity.
Qed.

(** X17. serializePermissions on a non-null object throws exactly when
    pathFromURL throws on an element of an array under read, write, run or
    ffi, and the error it throws is one that pathFromURL threw on such an
    element; arrays under env, hrtime, net and sys are never converted. *)
Theorem serializePermissions_failure (p : value) :
  typeof p = "object" -> p <> VNull ->
  (forall e, serializePermissions pathFromURL p = Throw e ->
     exists key l x, key ∈ ["read"; "write"; "run"; "ffi"]
       /\ get p key = VArray l /\ x ∈ l /\ pathFromURL x = Throw e)
  /\ (forall key l x e, key ∈ ["read"; "write"; "run"; "ffi"] ->
       get p key = VArray l -> x ∈ l -> pathFromURL x = Throw e ->
       exists e', serializePermissions pathFromURL p = Throw e').
Proof.
  intros Ht Hn. rewrite (serializePermissions_object pathFromURL p Ht Hn). split.
  - intros e H.
    destruct (convert_paths pathFromURL (get p "read")) as [a|ea] eqn:Ha.
    2:{ injection H as ->. apply convert_paths_throws in Ha as (l & x & ? & ? & ?).
        exists "read", l, x. repeat split; try done. repeat constructor. }
    destruct (convert_paths pathFromURL (get p "write")) as [b|eb] eqn:Hb.
    2:{ injection H as ->. apply convert_paths_throws in Hb as (l & x & ? & ? & ?).
        exists "write", l, x. repeat split; try done. repeat constructor. }
    destruct (convert_paths pathFromURL (get p "run")) as [c|ec] eqn:Hc.
    2:{ injection H as ->. apply convert_paths_throws in Hc as (l & x & ? & ? & ?).
        exists "run", l, x. repeat split; try done. repeat constructor. }
    destruct (convert_paths pathFromURL (get p "ffi")) as [d|ed] eqn:Hd.
    2:{ injection H as ->. apply convert_paths_throws in Hd as (l & x & ? & ? & ?).
        exists "ffi", l, x. repeat split; try done. repeat constructor. }
    discriminate.
  - intros key l x e Hkey Hl Hin Hx.
    destruct (convert_paths_fails l x e Hin Hx) as (e' & He').
    rewrite !elem_of_cons, elem_of_nil in Hkey.
    destruct (convert_paths pathFromURL (get p "read")) as [a|ea] eqn:Ha;
      [|by eauto].
    destruct (convert_paths pathFromURL (get p "write")) as [b|eb] eqn:Hb;
      [|by eauto].
    destruct (convert_paths pathFromURL (get p "run")) as [c|ec] eqn:Hc;
      [|by eauto].
    destruct (convert_paths pathFromURL (get p "ffi")) as [d|ed] eqn:Hd;
      [|by eauto].
    exfalso. destruct Hkey as [->|[->|[->|[->|[]]]]]; rewrite Hl in *; congruence.
Qed.

End Serialisation.

(** ** Resolving twice *)

Section Repetition.

Context {Engine : Type}.
Context (ops : core_ops Engine).
Context (pathFromURL : value -> completion value).

(** X18. Resolving a descriptor again with the state just resolved is
    silent: the same instance is returned and the process state, trace
    included, is as the first resolution left it. *)
Theorem cache_idempotent (desc : value) (st : PermissionState)
    (w w' : world Engine) (s : nat) :
  reachable ops pathFromURL w ->
  cache desc st w = (Normal s, w') ->
  cache desc st w' = (Normal s, w').
Proof.
  intros Hw H. apply reachable_wf in Hw as [Hcached _].
  destruct (cache_cases desc st w)
    as [(e & _ & E)|[(key & r & Hk & Hc & Hs & E)|[(key & r & Hk & Hc & Hs & E)
       |(key & Hk & Hc & E)]]]; rewrite E in H; simplify_eq.
  - exact E.
  - destruct (Hcached key r Hc) as (rec & self & Hr & _).
    pose proof (lookup_lt_Some _ _ _ Hr) as Hlt.
    match goal with |- cache desc st ?w1 = _ =>
      rewrite (cache_hit_same desc st w1 key r Hk)
    end; simpl; rewrite ?list_lookup_total_insert_eq by done; done.
  - match goal with |- cache desc st ?w1 = _ =>
      rewrite (cache_hit_same desc st w1 key (length (records w)) Hk)
    end; simpl;
      rewrite ?lookup_insert_eq,
        ?(list_lookup_total_middle (records w) [] _ (length (records w)) eq_refl);
      done.
Qed.

End Repetition.

(** ** The further properties at concrete inputs *)

Lemma file_pathFromURL_fixed (x y : value) :
  file_pathFromURL x = Normal y -> file_pathFromURL y = Normal y.
Proof.
  destruct x; simpl; try (intros [= <-]; reflexivity).
  destruct (String.prefix "file://" href); [|discriminate].
  intros [= <-]. reflexivity.
Defined.

Lemma facade_reports_engine_answer_witness :
  exists s w',
    reachable scripted file_pathFromURL w_start
    /\ querySync scripted file_pathFromURL d_tmp_url w_start = (Normal s, w')
    /\ exists n st, formDescriptor file_pathFromURL d_tmp_url = Normal n
         /\ op_of scripted Query n (engine w_start) = (Normal st, engine w')
         /\ PermissionStatus_state s w' = st.
Proof.
  exists 0, (querySync scripted file_pathFromURL d_tmp_url w_start).2.
  assert (querySync scripted file_pathFromURL d_tmp_url w_start
          = (Normal 0, (querySync scripted file_pathFromURL d_tmp_url w_start).2)) as Q
    by (vm_compute; reflexivity).
  split; [exact reachable_w_start|]. split; [exact Q|].
  exact (facade_reports_engine_answer scripted file_pathFromURL Query d_tmp_url
           w_start _ 0 reachable_w_start Q).
Defined.


Lemma one_instance_per_key_witness :
  let w := run scripted file_pathFromURL [QuerySync d_tmp_url; QuerySync d_net] w_start in
  reachable scripted file_pathFromURL w
  /\ length (instances w) = size (statusCache w)
  /\ length (records w) = size (statusCache w).
Proof.
  intros w.
  assert (reachable scripted file_pathFromURL w) as Hw.
  { exists [granted; denied; prompt], [QuerySync d_tmp_url; QuerySync d_net].
    reflexivity. }
  destruct (one_instance_per_key scripted file_pathFromURL w Hw) as (A & B & _).
  repeat split; assumption.
Defined.


Lemma earlier_reference_observes_later_answer_witness :
  exists s1 s2 w1 w2 st2,
    reachable scripted file_pathFromURL w_start
    /\ formDescriptor file_pathFromURL d_tmp_url = Normal d_tmp
    /\ formDescriptor file_pathFromURL d_tmp = Normal d_tmp
    /\ same_capability d_tmp d_tmp
    /\ querySync scripted file_pathFromURL d_tmp_url w_start = (Normal s1, w1)
    /\ revokeSync scripted file_pathFromURL d_tmp
         (run scripted file_pathFromURL [] w1) = (Normal s2, w2)
    /\ (op_of scripted Revoke d_tmp
          (engine (run scripted file_pathFromURL [] w1))).1 = Normal st2
    /\ PermissionStatus_state s1 w2 = st2.
Proof.
  assert (formDescriptor file_pathFromURL d_tmp_url = Normal d_tmp) as H2
    by (vm_compute; reflexivity).
  assert (formDescriptor file_pathFromURL d_tmp = Normal d_tmp) as H3
    by (vm_compute; reflexivity).
  assert (same_capability d_tmp d_tmp) as H4.
  { exists "read". split; [vm_compute; reflexivity|].
    split; [vm_compute; reflexivity|]. intros f _. reflexivity. }
  assert (querySync scripted file_pathFromURL d_tmp_url w_start
          = (Normal 0, (querySync scripted file_pathFromURL d_tmp_url w_start).2)) as H5
    by (vm_compute; reflexivity).
  assert (revokeSync scripted file_pathFromURL d_tmp
            (run scripted file_pathFromURL []
               (querySync scripted file_pathFromURL d_tmp_url w_start).2)
          = (Normal 0,
             (revokeSync scripted file_pathFromURL d_tmp
                (run scripted file_pathFromURL []
                   (querySync scripted file_pathFromURL d_tmp_url w_start).2)).2)) as H6
    by (vm_compute; reflexivity).
  destruct (earlier_reference_observes_later_answer scripted file_pathFromURL
              Query Revoke d_tmp_url d_tmp d_tmp d_tmp [] w_start _ _ 0 0
              reachable_w_start H2 H3 H4 H5 H6) as (st2 & Hop & Hst).
  exists 0, 0, (querySync scripted file_pathFromURL d_tmp_url w_start).2,
    (revokeSync scripted file_pathFromURL d_tmp
       (run scripted file_pathFromURL []
          (querySync scripted file_pathFromURL d_tmp_url w_start).2)).2, st2.
  repeat (split; [assumption || exact reachable_w_start|]). exact Hst.
Defined.


Lemma formDescriptor_idempotent_witness :
  (forall x y, file_pathFromURL x = Normal y -> file_pathFromURL y = Normal y)
  /\ formDescriptor file_pathFromURL d_tmp_url = Normal d_tmp
  /\ formDescriptor file_pathFromURL d_tmp = Normal d_tmp.
Proof.
  assert (formDescriptor file_pathFromURL d_tmp_url = Normal d_tmp) as H
    by (vm_compute; reflexivity).
  split; [exact file_pathFromURL_fixed|]. split; [exact H|].
  exact (formDescriptor_idempotent file_pathFromURL d_tmp_url d_tmp
           file_pathFromURL_fixed H).
Defined.


Lemma cacheKey_ignores_other_properties_witness :
  let d := obj [("name", VString "hrtime")] in
  get d "name" = VString "hrtime" /\ "path" <> "name"
  /\ identifying_field "hrtime" <> Some "path"
  /\ cacheKey (set d "path" (VString "/tmp/a")) = cacheKey d.
Proof.
  intros d.
  assert (get d "name" = VString "hrtime") as H1 by reflexivity.
  assert ("path" <> "name") as H2 by discriminate.
  assert (identifying_field "hrtime" <> Some "path") as H3 by discriminate.
  repeat (split; [assumption|]).
  exact (cacheKey_ignores_other_properties d "hrtime" "path" (VString "/tmp/a")
           H1 H2 H3).
Defined.

Lemma serializePermissions_has_the_eight_keys_witness :
  let p := obj [("read", VArray [VURL "file:///tmp/a"]); ("flag", VBoolean true)] in
  typeof p = "object" /\ p <> VNull
  /\ exists r, serializePermissions file_pathFromURL p = Normal r
       /\ exists props, r = VObject props
            /\ forall key, is_Some (props !! key) <-> key ∈ permissionNames.
Proof.
  intros p.
  assert (typeof p = "object") as Ht by reflexivity.
  assert (p <> VNull) as Hn by discriminate.
  split; [exact Ht|]. split; [exact Hn|].
  exists (obj [("read", VArray [VString "/tmp/a"]); ("write", VUndefined);
               ("run", VUndefined); ("ffi", VUndefined); ("env", VUndefined);
               ("hrtime", VUndefined); ("net", VUndefined); ("sys", VUndefined)]).
  assert (serializePermissions file_pathFromURL p
          = Normal (obj [("read", VArray [VString "/tmp/a"]); ("write", VUndefined);
                         ("run", VUndefined); ("ffi", VUndefined);
                         ("env", VUndefined); ("hrtime", VUndefined);
                         ("net", VUndefined); ("sys", VUndefined)])) as Hr
    by (vm_compute; reflexivity).
  split; [exact Hr|].
  exact (serializePermissions_has_the_eight_keys file_pathFromURL p _ Ht Hn Hr).
Defined.

Lemma serializePermissions_idempotent_witness :
  let p := obj [("read", VArray [VURL "file:///tmp/a"]); ("net", VBoolean true)] in
  (forall x y, file_pathFromURL x = Normal y -> file_pathFromURL y = Normal y)
  /\ exists r, serializePermissions file_pathFromURL p = Normal r
       /\ serializePermissions file_pathFromURL r = Normal r.
Proof.
  intros p. split; [exact file_pathFromURL_fixed|].
  exists (obj [("read", VArray [VString "/tmp/a"]); ("write", VUndefined);
               ("run", VUndefined); ("ffi", VUndefined); ("env", VUndefined);
               ("hrtime", VUndefined); ("net", VBoolean true); ("sys", VUndefined)]).
  assert (serializePermissions file_pathFromURL p
          = Normal (obj [("read", VArray [VString "/tmp/a"]); ("write", VUndefined);
                         ("run", VUndefined); ("ffi", VUndefined);
                         ("env", VUndefined); ("hrtime", VUndefined);
                         ("net", VBoolean true); ("sys", VUndefined)])) as Hr
    by (vm_compute; reflexivity).
  split; [exact Hr|].
  exact (serializePermissions_idempotent file_pathFromURL p _ file_pathFromURL_fixed Hr).
Defined.

Lemma serializePermissions_failure_witness :
  let p := obj [("run", VArray [VString "/bin/sh"; VURL "http://example.com/"])] in
  typeof p = "object" /\ p <> VNull
  /\ get p "run" = VArray [VString "/bin/sh"; VURL "http://example.com/"]
  /\ file_pathFromURL (VURL "http://example.com/") = Throw (TypeError "Must be a file URL.")
  /\ exists e, serializePermissions file_pathFromURL p = Throw e.
Proof.
  intros p.
  assert (typeof p = "object") as Ht by reflexivity.
  assert (p <> VNull) as Hn by discriminate.
  assert (get p "run" = VArray [VString "/bin/sh"; VURL "http://example.com/"]) as Hl
    by (vm_compute; reflexivity).
  assert (file_pathFromURL (VURL "http://example.com/")
          = Throw (TypeError "Must be a file URL.")) as Hx by (vm_compute; reflexivity).
  repeat (split; [assumption|]).
  destruct (serializePermissions_failure file_pathFromURL p Ht Hn) as [_ Hfail].
  eapply (Hfail "run" _ (VURL "http://example.com/"));
    [repeat constructor | exact Hl | repeat constructor | exact Hx].
Defined.

Lemma cache_idempotent_witness :
  exists s w',
    reachable scripted file_pathFromURL w_start
    /\ cache d_tmp granted w_start = (Normal s, w')
    /\ cache d_tmp granted w' = (Normal s, w').
Proof.
  exists 0, (cache d_tmp granted w_start).2.
  assert (cache d_tmp granted w_start = (Normal 0, (cache d_tmp granted w_start).2)) as Q
    by (vm_compute; reflexivity).
  split; [exact reachable_w_start|]. split; [exact Q|].
  exact (cache_idempotent scripted file_pathFromURL d_tmp granted w_start _ 0
           reachable_w_start Q).
Defined.
